(** * AzimuthalMap: the interactive azimuthal-equidistant map component

    A shallow embedding of [AzimuthalMap.tsx] (the revision with the
    coordinate readout, the country labels and the clamped pitch) and proofs
    of the properties its specification states.

    JavaScript numbers are IEEE-754 binary64 values, so they are modelled by
    Rocq's primitive floats: [+], [-], [*], [/] and [Math.sqrt] are the
    primitive operations, and [Math.max] / [Math.min] are written out with
    their NaN and signed-zero cases.  The libraries the component calls
    (d3-geo's path generator, topojson, [Math.sin] / [Math.cos],
    [Number::toString]) are variables of the section: the proofs hold for
    every behaviour they may have. *)

From Stdlib Require Import ZArith Lia Bool List String Ascii.
From Stdlib Require Import Floats DecimalString.
From Stdlib Require Uint63.
Import ListNotations.

Set Warnings "-inexact-float".

Local Open Scope string_scope.
Local Open Scope list_scope.
Local Open Scope float_scope.

(** ** JavaScript values and built-ins *)

Module JS.

(** [Math.max(a, b)]: NaN if either argument is NaN; [+0] is larger
    than [-0]. *)
Definition Math_max (a b : float) : float :=
  if is_nan a || is_nan b then nan
  else if a <? b then b
  else if b <? a then a
  else if get_sign a then b else a.

(** [Math.min(a, b)]: NaN if either argument is NaN; [-0] is smaller
    than [+0]. *)
Definition Math_min (a b : float) : float :=
  if is_nan a || is_nan b then nan
  else if a <? b then a
  else if b <? a then b
  else if get_sign a then a else b.

(** [Math.sqrt(a)], the correctly rounded square root that the engines
    compute with the processor's instruction. *)
Definition Math_sqrt (a : float) : float := PrimFloat.sqrt a.

Definition Math_PI : float := 3.141592653589793.

(** [lo <= v && v <= hi]; false when [v] is NaN. *)
Definition within (lo hi v : float) : bool := (lo <=? v) && (v <=? hi).

(** ECMAScript's SameValueZero: the same number, where NaN is NaN and the
    two zeros are one value. *)
Definition SameValueZero (a b : float) : bool :=
  (is_nan a && is_nan b) || (a =? b).

(** A zero or a finite non-zero value of the binary64 specification. *)
Definition sf_finite (s : spec_float) : bool :=
  match s with
  | S754_zero _ | S754_finite _ _ _ => true
  | _ => false
  end.

(** An integer-valued number (a loop counter) as a number. *)
Definition of_Z (i : Z) : float := of_uint63 (Uint63.of_Z i).

(** [i.toString()] for an integer-valued number. *)
Definition Z_toString (i : Z) : string := NilZero.string_of_int (Z.to_int i).

(** [a || b] on [string | null]: the empty string and [null] are falsy. *)
Definition or_string (a : option string) (b : string) : string :=
  match a with
  | Some EmptyString | None => b
  | Some s => s
  end.

(** Thrown values and rejection reasons. *)
Inductive Exn : Type :=
| Error (message : string)
| NetworkError (reason : string).

(** The result of running a callback: it returns or it throws. *)
Inductive Result (A : Type) : Type :=
| Ok (a : A)
| Throw (e : Exn).

Arguments Ok {A} a.
Arguments Throw {A} e.

Definition bind {A B : Type} (r : Result A) (f : A -> Result B) : Result B :=
  match r with
  | Ok a => f a
  | Throw e => Throw e
  end.

(** *** [Number.prototype.toFixed] *)

(** The integer [n] for which [n / 10^f - m * 2^e] is closest to zero, the
    larger one of two. *)
Definition nearest_scaled (f : nat) (m : positive) (e : Z) : Z :=
  let v := (Zpos m * 10 ^ Z.of_nat f)%Z in
  match e with
  | Zneg p => ((2 * v + 2 ^ Zpos p) / (2 * 2 ^ Zpos p))%Z
  | _ => (v * 2 ^ e)%Z
  end.

(** [m * 2^e >= 10^21]. *)
Definition at_least_1e21 (m : positive) (e : Z) : bool :=
  match e with
  | Zneg p => (10 ^ 21 * 2 ^ Zpos p <=? Zpos m)%Z
  | _ => (10 ^ 21 <=? Zpos m * 2 ^ e)%Z
  end.

(** [count] occurrences of the digit zero. *)
Fixpoint zeros (count : nat) : string :=
  match count with
  | O => EmptyString
  | S c => String "0"%char (zeros c)
  end.

(** The digits of [n >= 0] with the decimal point before the last [f]. *)
Definition fixed_digits (f : nat) (n : Z) : string :=
  let m := NilZero.string_of_uint (N.to_uint (Z.to_N n)) in
  match f with
  | O => m
  | _ =>
      let k := String.length m in
      let m := if (k <=? f)%nat then (zeros (f + 1 - k) ++ m)%string else m in
      let k := String.length m in
      (substring 0 (k - f) m ++ "." ++ substring (k - f) f m)%string
  end.

End JS.

Import JS.

(** ** d3: zoom transforms, projections, elements *)

Module D3.

(** [d3.ZoomTransform]. *)
Record ZoomTransform : Type := { k : float; x : float; y : float }.

Definition zoomIdentity : ZoomTransform := {| k := 1; x := 0; y := 0 |}.

(** The state of a [GeoProjection] that the component sets. *)
Record GeoProjection : Type := {
  scale : float;
  translate : float * float;
  rotate : float * float * float
}.

(** An attribute value as passed to [selection.attr]. *)
Inductive Value : Type :=
| Num (v : float)
| Str (s : string).

Definition Attrs : Type := list (string * Value).

Record Element : Type := {
  tag : string;
  attrs : Attrs;
  text : option string
}.

Definition element (t : string) : Element :=
  {| tag := t; attrs := []; text := None |}.

(** [selection.attr(name, v)] on one element: the attribute is replaced
    where it is, or added last. *)
Fixpoint set_attr (name : string) (v : Value) (a : Attrs) : Attrs :=
  match a with
  | [] => [(name, v)]
  | (n, w) :: rest =>
      if String.eqb n name then (n, v) :: rest
      else (n, w) :: set_attr name v rest
  end.

Fixpoint get_attr (name : string) (a : Attrs) : option Value :=
  match a with
  | [] => None
  | (n, w) :: rest => if String.eqb n name then Some w else get_attr name rest
  end.

Definition attr (name : string) (v : Value) (e : Element) : Element :=
  {| tag := tag e; attrs := set_attr name v (attrs e); text := text e |}.

Definition set_text (s : string) (e : Element) : Element :=
  {| tag := tag e; attrs := attrs e; text := Some s |}.

(** An element with child elements. *)
Record Group : Type := {
  group_attrs : Attrs;
  children : list Element
}.

End D3.

Import D3.

Notation "e |> f" := (f e) (at level 45, left associativity, only parsing).

(** ** A sample environment

    A two-country dataset and stand-ins for the libraries, to run the
    component on concrete inputs. *)

Module Sample.

Definition Topology : Type := unit.
Definition Feature : Type := string.
Definition properties_name (d : Feature) : string := d.

Definition topojson_feature (t : Topology) : Result (list Feature) :=
  Ok ["Sweden"; "Antarctica"].

(** Sweden draws a triangle; Antarctica is clipped away entirely. *)
Definition geoPath (p : GeoProjection) (d : Feature) : option string :=
  if String.eqb d "Sweden" then Some "M400,10L410,30L390,30Z" else None.

Definition path_centroid (p : GeoProjection) (d : Feature) : float * float :=
  (400, 25).

Definition Number_toString (v : float) : string :=
  match Prim2SF v with
  | S754_zero _ => "0"
  | _ => "n"
  end.

Definition Math_sin (a : float) : float := a.
Definition Math_cos (a : float) : float := 1 - a * a / 2.

Definition zoom_translate (t : ZoomTransform) (k1 : float) : float * float :=
  (440 - (440 - x t) / k t * k1, 440 - (440 - y t) / k t * k1).

End Sample.

(** ** The component *)

Section AzimuthalMap.

(** The decoded dataset and its features; [d.properties.name]. *)
Variables Topology Feature : Type.
Variable properties_name : Feature -> string.

(** [topojson.feature(topology, topology.objects.countries).features];
    the library throws on a dataset it cannot decode. *)
Variable topojson_feature : Topology -> Result (list Feature).

(** d3-geo's path generator over the projection: [path(d)], which is
    [null] when the feature draws nothing, and [path.centroid(d)]. *)
Variable geoPath : GeoProjection -> Feature -> option string.
Variable path_centroid : GeoProjection -> Feature -> float * float.

(** [Number::toString], [Math.sin] and [Math.cos]. *)
Variable Number_toString : float -> string.
Variables Math_sin Math_cos : float -> float.

(** d3-zoom's translation that keeps the viewport centre fixed when
    [zoom.scaleTo] moves a transform to a new scale. *)
Variable zoom_translate : ZoomTransform -> float -> float * float.

(** [x.toFixed(f)]. *)
Definition toFixed (f : nat) (x : float) : string :=
  match Prim2SF x with
  | S754_nan | S754_infinity _ => Number_toString x
  | S754_zero _ => fixed_digits f 0
  | S754_finite s m e =>
      ((if s then "-" else "") ++
       (if at_least_1e21 m e then Number_toString (abs x)
        else fixed_digits f (nearest_scaled f m e)))%string
  end.

(** *** State *)

(** An element of the data join, with the feature bound to it. *)
Record Bound : Type := { datum : Feature; node : Element }.

(** The drawing under [svgRef.current], one field per selection the
    effect holds. *)
Record Scene : Type := {
  svg : Attrs;
  mapGroup : Attrs;
  clipPath : Group;
  clippedGroup : Group;
  g_attrs : Attrs;
  g : list Bound;
  mapGroup_circle : option Element;
  degreesGroup : option Group
}.

(** The variables the gesture handlers close over; they exist once the
    dataset has loaded. *)
Record Gesture : Type := {
  lastDeltaX : float;
  lastDeltaY : float;
  initialScale : float
}.

Record Component : Type := {
  svgRef : bool;
  rotationRef : float * float * float;
  zoomRef : ZoomTransform;
  coordinates : float * float;
  projection : GeoProjection;
  svg_zoom : ZoomTransform;
  scene : Scene;
  hammer : option Gesture;
  settled : bool;
  console : list (string * Exn)
}.

Definition yaw (c : Component) : float := fst (fst (rotationRef c)).
Definition pitch (c : Component) : float := snd (fst (rotationRef c)).
Definition roll (c : Component) : float := snd (rotationRef c).

Definition with_svgRef (v : bool) (c : Component) : Component :=
  {| svgRef := v; rotationRef := rotationRef c; zoomRef := zoomRef c;
     coordinates := coordinates c; projection := projection c;
     svg_zoom := svg_zoom c; scene := scene c; hammer := hammer c;
     settled := settled c; console := console c |}.

Definition with_rotationRef (v : float * float * float) (c : Component) : Component :=
  {| svgRef := svgRef c; rotationRef := v; zoomRef := zoomRef c;
     coordinates := coordinates c; projection := projection c;
     svg_zoom := svg_zoom c; scene := scene c; hammer := hammer c;
     settled := settled c; console := console c |}.

Definition with_zoomRef (v : ZoomTransform) (c : Component) : Component :=
  {| svgRef := svgRef c; rotationRef := rotationRef c; zoomRef := v;
     coordinates := coordinates c; projection := projection c;
     svg_zoom := svg_zoom c; scene := scene c; hammer := hammer c;
     settled := settled c; console := console c |}.

Definition setCoordinates (v : float * float) (c : Component) : Component :=
  {| svgRef := svgRef c; rotationRef := rotationRef c; zoomRef := zoomRef c;
     coordinates := v; projection := projection c;
     svg_zoom := svg_zoom c; scene := scene c; hammer := hammer c;
     settled := settled c; console := console c |}.

Definition with_projection (v : GeoProjection) (c : Component) : Component :=
  {| svgRef := svgRef c; rotationRef := rotationRef c; zoomRef := zoomRef c;
     coordinates := coordinates c; projection := v;
     svg_zoom := svg_zoom c; scene := scene c; hammer := hammer c;
     settled := settled c; console := console c |}.

Definition with_svg_zoom (v : ZoomTransform) (c : Component) : Component :=
  {| svgRef := svgRef c; rotationRef := rotationRef c; zoomRef := zoomRef c;
     coordinates := coordinates c; projection := projection c;
     svg_zoom := v; scene := scene c; hammer := hammer c;
     settled := settled c; console := console c |}.

Definition with_scene (v : Scene) (c : Component) : Component :=
  {| svgRef := svgRef c; rotationRef := rotationRef c; zoomRef := zoomRef c;
     coordinates := coordinates c; projection := projection c;
     svg_zoom := svg_zoom c; scene := v; hammer := hammer c;
     settled := settled c; console := console c |}.

Definition with_hammer (v : option Gesture) (c : Component) : Component :=
  {| svgRef := svgRef c; rotationRef := rotationRef c; zoomRef := zoomRef c;
     coordinates := coordinates c; projection := projection c;
     svg_zoom := svg_zoom c; scene := scene c; hammer := v;
     settled := settled c; console := console c |}.

Definition with_settled (v : bool) (c : Component) : Component :=
  {| svgRef := svgRef c; rotationRef := rotationRef c; zoomRef := zoomRef c;
     coordinates := coordinates c; projection := projection c;
     svg_zoom := svg_zoom c; scene := scene c; hammer := hammer c;
     settled := v; console := console c |}.

(** [console.error(message, error)]. *)
Definition console_error (message : string) (error : Exn) (c : Component) : Component :=
  {| svgRef := svgRef c; rotationRef := rotationRef c; zoomRef := zoomRef c;
     coordinates := coordinates c; projection := projection c;
     svg_zoom := svg_zoom c; scene := scene c; hammer := hammer c;
     settled := settled c; console := console c ++ [(message, error)] |}.

Definition with_g_attrs (v : Attrs) (s : Scene) : Scene :=
  {| svg := svg s; mapGroup := mapGroup s; clipPath := clipPath s;
     clippedGroup := clippedGroup s; g_attrs := v; g := g s;
     mapGroup_circle := mapGroup_circle s; degreesGroup := degreesGroup s |}.

Definition with_g (v : list Bound) (s : Scene) : Scene :=
  {| svg := svg s; mapGroup := mapGroup s; clipPath := clipPath s;
     clippedGroup := clippedGroup s; g_attrs := g_attrs s; g := v;
     mapGroup_circle := mapGroup_circle s; degreesGroup := degreesGroup s |}.

Definition with_mapGroup_circle (v : option Element) (s : Scene) : Scene :=
  {| svg := svg s; mapGroup := mapGroup s; clipPath := clipPath s;
     clippedGroup := clippedGroup s; g_attrs := g_attrs s; g := g s;
     mapGroup_circle := v; degreesGroup := degreesGroup s |}.

Definition with_degreesGroup (v : option Group) (s : Scene) : Scene :=
  {| svg := svg s; mapGroup := mapGroup s; clipPath := clipPath s;
     clippedGroup := clippedGroup s; g_attrs := g_attrs s; g := g s;
     mapGroup_circle := mapGroup_circle s; degreesGroup := v |}.

(** *** View geometry *)

Definition width : float := 800.
Definition height : float := 800.
Definition padding : float := 40.
Definition totalWidth : float := width + 2 * padding.
Definition totalHeight : float := height + 2 * padding.

(** [.scaleExtent([0.5632, 8])]. *)
Definition scaleExtent : float * float := (0.5632, 8).

(** *** Rendering *)

(** [g.selectAll(t).attr(name, f)]: every child of [g] with tag [t] gets
    the attribute computed from its datum. *)
Definition selectAll_attr (t name : string) (f : Feature -> Value)
    (l : list Bound) : list Bound :=
  map (fun b =>
         if String.eqb (tag (node b)) t
         then {| datum := datum b; node := attr name (f (datum b)) (node b) |}
         else b) l.

(** [g.selectAll(t).data(features)]: the children with tag [t] are bound, in
    document order, to the features one by one (the update selection); the
    features left over make the enter selection. *)
Fixpoint data_join (t : string) (features : list Feature) (l : list Bound)
    : list Bound * list Feature :=
  match l with
  | [] => ([], features)
  | b :: rest =>
      if String.eqb (tag (node b)) t then
        match features with
        | [] => (b :: rest, [])
        | d :: ds =>
            let (rest', enter) := data_join t ds rest in
            ({| datum := d; node := node b |} :: rest', enter)
        end
      else
        let (rest', enter) := data_join t features rest in
        (b :: rest', enter)
  end.

(** [g.selectAll(t).data(features).enter().append(t)], then the chain
    [build] on each new element: one element, appended last, for every
    feature of the enter selection. *)
Definition enter_append (t : string) (features : list Feature)
    (build : Feature -> Element -> Element) (l : list Bound) : list Bound :=
  let (l', enter) := data_join t features l in
  l' ++ map (fun d => {| datum := d; node := build d (element t) |}) enter.

Definition path_d (p : GeoProjection) (d : Feature) : Value :=
  Str (or_string (geoPath p d) "").

Definition label_transform (p : GeoProjection) (d : Feature) : Value :=
  let centroid := path_centroid p d in
  Str ("translate(" ++ Number_toString (fst centroid) ++ ","
       ++ Number_toString (snd centroid) ++ ")")%string.

Definition updateMap (c : Component) : Component :=
  let p := {| scale := scale (projection c);
              translate := translate (projection c);
              rotate := rotationRef c |} in
  let c := with_projection p c in
  let paths := selectAll_attr "path" "d" (path_d p) (g (scene c)) in
  let c := with_scene (with_g paths (scene c)) c in
  let labels := selectAll_attr "text" "transform" (label_transform p) (g (scene c)) in
  with_scene (with_g labels (scene c)) c.

(** The listener of the zoom behaviour's [zoom] event. *)
Definition zoomed (transform : ZoomTransform) (c : Component) : Component :=
  let c := with_zoomRef transform c in
  let c :=
    with_scene
      (with_g_attrs
         (set_attr "transform"
            (Str ("translate(" ++ Number_toString (width / 2) ++ ", "
                  ++ Number_toString (height / 2) ++ ") scale("
                  ++ Number_toString (k transform) ++ ") translate("
                  ++ Number_toString (- width / 2) ++ ", "
                  ++ Number_toString (- height / 2) ++ ")")%string)
            (g_attrs (scene c)))
         (scene c)) c in
  let c :=
    with_projection
      {| scale := ((height - 20) / 2) * k transform;
         translate := translate (projection c);
         rotate := rotate (projection c) |} c in
  updateMap c.

(** *** The zoom behaviour (d3-zoom)

    d3-zoom is a library the component configures and calls.  What it does
    to the scale factor is written out below as its documentation gives it;
    the translation it computes, which the component never reads, is left
    to [zoom_translate] and to the event. *)

(** d3-zoom restricts every scale it is asked for to the scale extent
    ([Math.max(scaleExtent[0], Math.min(scaleExtent[1], k))]). *)
Definition zoom_clamp (k1 : float) : float :=
  Math_max (fst scaleExtent) (Math_min (snd scaleExtent) k1).

(** [zoom.scaleTo(svg, k1)]: the transform kept on the node moves to the
    restricted scale and the [zoom] event is dispatched with it. *)
Definition zoom_scaleTo (k1 : float) (c : Component) : Component :=
  let t0 := svg_zoom c in
  let k1 := zoom_clamp k1 in
  let p := zoom_translate t0 k1 in
  let t1 := {| k := k1; x := fst p; y := snd p |} in
  zoomed t1 (with_svg_zoom t1 c).

(** A wheel tick handled by d3-zoom itself: the scale asked for is the
    node's scale times [factor] (a power of two of the wheel delta), [tx]
    and [ty] keep the pointer fixed; nothing is dispatched when the
    restricted scale is the node's. *)
Definition wheeled (factor tx ty : float) (c : Component) : Component :=
  let t := svg_zoom c in
  let k1 := zoom_clamp (k t * factor) in
  if k t =? k1 then c
  else
    let t1 := {| k := k1; x := tx; y := ty |} in
    zoomed t1 (with_svg_zoom t1 c).

(** *** The Hammer handlers

    [panmove] reports [ev.deltaX] and [ev.deltaY], the offsets from the
    start of the pan; [pinch] reports [ev.scale], the ratio to the start
    of the pinch. *)

Definition panstart (h : Gesture) : Gesture :=
  {| lastDeltaX := 0; lastDeltaY := 0; initialScale := initialScale h |}.

Definition baseK : float := 0.3.

(** The rotation sensitivity of a pan at zoom scale [zk]. *)
Definition pan_k (zk : float) : float :=
  let zoomFactor := Math_sqrt zk in
  baseK / zoomFactor.

Definition panmove (ev_deltaX ev_deltaY : float) (h : Gesture) (c : Component)
    : Result (Gesture * Component) :=
  let '(x, y, _) := rotationRef c in
  let k := pan_k (k (zoomRef c)) in
  let deltaX := ev_deltaX - lastDeltaX h in
  let deltaY := ev_deltaY - lastDeltaY h in
  let newX := x + deltaX * k in
  let newY := Math_max (-90) (Math_min 90 (y - deltaY * k)) in
  let c := with_rotationRef (newX, newY, 0) c in
  let c := setCoordinates (newX, newY) c in
  let c := updateMap c in
  Ok ({| lastDeltaX := ev_deltaX; lastDeltaY := ev_deltaY;
         initialScale := initialScale h |}, c).

Definition pinchstart (h : Gesture) (c : Component) : Gesture :=
  {| lastDeltaX := lastDeltaX h; lastDeltaY := lastDeltaY h;
     initialScale := k (zoomRef c) |}.

Definition pinch (ev_scale : float) (h : Gesture) (c : Component) : Component :=
  let scale := Math_max 0.5632 (Math_min 8 (initialScale h * ev_scale)) in
  zoom_scaleTo scale c.

(** *** The tick ring *)

Definition outerRadius : float := (height - 20) / 2.

Definition innerRadius (i : Z) : float :=
  if (Z.rem i 60 =? 0)%Z then outerRadius * 0.05
  else if (Z.rem i 30 =? 0)%Z then outerRadius * 0.34
  else if (Z.rem i 10 =? 0)%Z then outerRadius * 0.64
  else outerRadius * 0.8.

Definition tick_line (i : Z) : Element :=
  let angle := of_Z i * (Math_PI / 180) in
  element "line"
  |> attr "x1" (Num (width / 2 + innerRadius i * Math_sin angle))
  |> attr "y1" (Num (height / 2 - innerRadius i * Math_cos angle))
  |> attr "x2" (Num (width / 2 + outerRadius * Math_sin angle))
  |> attr "y2" (Num (height / 2 - outerRadius * Math_cos angle))
  |> attr "stroke" (Str ("#000" ++ (if (Z.rem i 30 =? 0)%Z then "9" else "6")))
  |> attr "stroke-width" (Num 1).

Definition tick_text (i : Z) : Element :=
  let angle := of_Z i * (Math_PI / 180) in
  let textRadius := outerRadius + 20 in
  element "text"
  |> attr "x" (Num (width / 2 + textRadius * Math_sin angle))
  |> attr "y" (Num (height / 2 - textRadius * Math_cos angle))
  |> attr "text-anchor" (Str "middle")
  |> attr "dominant-baseline" (Str "middle")
  |> attr "font-size" (Str "12px")
  |> set_text (Z_toString i ++ "º").

(** [for (let i = 0; i < 360; i += 5) { ... }], started at [i] with the
    children appended so far; [fuel] bounds the iterations. *)
Fixpoint tick_loop (fuel : nat) (i : Z) (drawn : list Element) : list Element :=
  match fuel with
  | O => drawn
  | S fuel' =>
      if (i <? 360)%Z then
        let drawn := drawn ++ [tick_line i] in
        let drawn :=
          if (Z.rem i 10 =? 0)%Z then drawn ++ [tick_text i] else drawn in
        tick_loop fuel' (i + 5)%Z drawn
      else drawn
  end.

Definition ticks : list Element := tick_loop 360 0%Z [].

(** *** Mounting and loading *)

(** The promise of [d3.json]: rejected, or fulfilled with the parsed
    dataset ([undefined] for an empty response). *)
Inductive Settlement : Type :=
| Rejected (error : Exn)
| Fulfilled (topology : option Topology).

Definition circle_clip : Element :=
  element "circle"
  |> attr "cx" (Num (width / 2))
  |> attr "cy" (Num (height / 2))
  |> attr "r" (Num ((height - 20) / 2)).

Definition background : Element :=
  element "rect"
  |> attr "width" (Num width)
  |> attr "height" (Num height)
  |> attr "fill" (Str "#a6d5ff").

(** The component after its first render and the synchronous part of the
    effect. *)
Definition mount : Component :=
  let viewBox :=
    (Number_toString 0 ++ " " ++ Number_toString 0 ++ " "
     ++ Number_toString totalWidth ++ " " ++ Number_toString totalHeight)%string in
  let s :=
    {| svg := []
              |> set_attr "width" (Num totalWidth)
              |> set_attr "height" (Num totalHeight)
              |> set_attr "viewBox" (Str viewBox);
       mapGroup :=
         [("transform",
           Str ("translate(" ++ Number_toString padding ++ ", "
                ++ Number_toString padding ++ ")")%string)];
       clipPath := {| group_attrs := [("id", Str "circle-clip")];
                      children := [circle_clip] |};
       clippedGroup := {| group_attrs := [("clip-path", Str "url(#circle-clip)")];
                          children := [background] |};
       g_attrs := [];
       g := [];
       mapGroup_circle := None;
       degreesGroup := None |} in
  let c :=
    {| svgRef := true;
       rotationRef := (-13.27, -58.33, 0);
       zoomRef := zoomIdentity;
       coordinates := (-13.27, -58.33);
       projection := {| scale := (height - 20) / 2;
                        translate := (width / 2, height / 2);
                        rotate := (0, 0, 0) |};
       svg_zoom := zoomIdentity;
       scene := s;
       hammer := None;
       settled := false;
       console := [] |} in
  let s := scene c in
  let c :=
    with_scene
      {| svg := set_attr "aria-label"
                  (Str "Interactive Azimuthal Equidistant World Map") (svg s);
         mapGroup := mapGroup s; clipPath := clipPath s;
         clippedGroup := clippedGroup s; g_attrs := g_attrs s; g := g s;
         mapGroup_circle := mapGroup_circle s;
         degreesGroup := degreesGroup s |} c in
  updateMap c.

Definition country_path (p : GeoProjection) (d : Feature) (e : Element) : Element :=
  e
  |> attr "d" (path_d p d)
  |> attr "fill" (Str "#d4e6c2")
  |> attr "stroke" (Str "#000")
  |> attr "stroke-width" (Num 0.5).

Definition country_label (p : GeoProjection) (d : Feature) (e : Element) : Element :=
  e
  |> attr "transform" (label_transform p d)
  |> attr "text-anchor" (Str "middle")
  |> attr "dominant-baseline" (Str "middle")
  |> attr "font-size" (Str "8px")
  |> attr "fill" (Str "#000")
  |> set_text (properties_name d).

Definition edge_circle : Element :=
  element "circle"
  |> attr "cx" (Num (width / 2))
  |> attr "cy" (Num (height / 2))
  |> attr "r" (Num ((height - 20) / 2))
  |> attr "fill" (Str "none")
  |> attr "stroke" (Str "#0009")
  |> attr "stroke-width" (Num 1)
  |> attr "pointer-events" (Str "none").

(** The [.then] callback. *)
Definition loaded (topology : option Topology) (c : Component) : Result Component :=
  if negb (svgRef c) then Ok c
  else
    match topology with
    | None => Throw (Error "Failed to load topology")
    | Some topology =>
        bind (topojson_feature topology) (fun features =>
          let p := projection c in
          let c := with_scene
                     (with_g (enter_append "path" features (country_path p)
                                (g (scene c))) (scene c)) c in
          let c := with_scene
                     (with_g (enter_append "text" features (country_label p)
                                (g (scene c))) (scene c)) c in
          let c := with_hammer
                     (Some {| lastDeltaX := 0; lastDeltaY := 0;
                              initialScale := 1 |}) c in
          let c := with_scene
                     (with_mapGroup_circle (Some edge_circle) (scene c)) c in
          let c := with_scene
                     (with_degreesGroup
                        (Some {| group_attrs := []; children := ticks |})
                        (scene c)) c in
          Ok c)
    end.

(** The [.catch] callback. *)
Definition failed (error : Exn) (c : Component) : Component :=
  console_error "Error loading or processing world map data:" error c.

(** The promise chain [d3.json(url).then(loaded).catch(failed)] once the
    request settles. *)
Definition settle (r : Settlement) (c : Component) : Component :=
  match r with
  | Rejected error => failed error c
  | Fulfilled topology =>
      match loaded topology c with
      | Ok c' => c'
      | Throw error => failed error c
      end
  end.

(** *** Events *)

Inductive Event : Type :=
| Unmount
| Settle (r : Settlement)
| PanStart
| PanMove (deltaX deltaY : float)
| PinchStart
| Pinch (scale : float)
| Wheel (factor tx ty : float).

(** One event handled to completion.  A promise settles once; the Hammer
    handlers are registered by the [.then] callback. *)
Definition handle (ev : Event) (c : Component) : Result Component :=
  match ev with
  | Unmount => Ok (with_svgRef false c)
  | Settle r =>
      if settled c then Ok c else Ok (settle r (with_settled true c))
  | PanStart =>
      match hammer c with
      | Some h => Ok (with_hammer (Some (panstart h)) c)
      | None => Ok c
      end
  | PanMove deltaX deltaY =>
      match hammer c with
      | Some h =>
          bind (panmove deltaX deltaY h c) (fun hc =>
            Ok (with_hammer (Some (fst hc)) (snd hc)))
      | None => Ok c
      end
  | PinchStart =>
      match hammer c with
      | Some h => Ok (with_hammer (Some (pinchstart h c)) c)
      | None => Ok c
      end
  | Pinch scale =>
      match hammer c with
      | Some h => Ok (pinch scale h c)
      | None => Ok c
      end
  | Wheel factor tx ty => Ok (wheeled factor tx ty c)
  end.

Fixpoint run (evs : list Event) (c : Component) : Result Component :=
  match evs with
  | [] => Ok c
  | ev :: rest => bind (handle ev c) (run rest)
  end.

(** *** The coordinate readout *)

Definition readout (c : Component) : string :=
  (toFixed 2 (fst (coordinates c)) ++ "°, "
   ++ toFixed 2 (snd (coordinates c)) ++ "°")%string.

Definition qth_note (c : Component) : string :=
  if (fst (coordinates c) =? -13.27) && (snd (coordinates c) =? -58.33)
  then "(SA6HAM QTH)" else " ".

(** *** Well-formed events and the invariants of the controller *)

(** The gesture libraries report numbers: a pinch ratio or a wheel factor
    is any number at all, infinite ones included, and the vertical offset
    of a pan is a finite pixel offset.  Nothing is asked of the horizontal
    offset, which only feeds the unclamped yaw. *)
Definition zoom_number (ev : Event) : bool :=
  match ev with
  | Pinch scale => negb (is_nan scale)
  | Wheel factor _ _ => negb (is_nan factor)
  | _ => true
  end.

Definition event_number (ev : Event) : bool :=
  match ev with
  | PanMove _ deltaY => is_finite deltaY
  | _ => zoom_number ev
  end.

Definition in_scaleExtent (v : float) : bool :=
  within (fst scaleExtent) (snd scaleExtent) v.

Definition zoom_inv (c : Component) : bool :=
  in_scaleExtent (k (zoomRef c)) && in_scaleExtent (k (svg_zoom c))
  && match hammer c with
     | Some h => in_scaleExtent (initialScale h)
     | None => true
     end.

Definition pan_inv (c : Component) : bool :=
  within (-90) 90 (pitch c) && Leibniz.eqb (roll c) 0
  && match hammer c with
     | Some h => is_finite (lastDeltaY h)
     | None => true
     end.

(** The text of a path element's [d] attribute, when it has one. *)
Definition rendered_d (b : Bound) : option Value := get_attr "d" (attrs (node b)).

Definition is_tag (t : string) (e : Element) : bool := String.eqb (tag e) t.


(** *** The tick ring as the specification words it *)




(** *** Loading failures and the scaffold *)

(** The error the promise chain catches, if any: a rejection of the
    request, an empty response or a dataset that cannot be decoded (the
    last two only while the drawing is mounted). *)
Definition load_error (c : Component) (r : Settlement) : option Exn :=
  match r with
  | Rejected error => Some error
  | Fulfilled topology =>
      if negb (svgRef c) then None
      else
        match topology with
        | None => Some (Error "Failed to load topology")
        | Some topology =>
            match topojson_feature topology with
            | Ok _ => None
            | Throw error => Some error
            end
        end
  end.

(** The drawing holds the clipped background and nothing of what the
    [.then] callback draws: no country shape or label, no edge circle, no
    tick ring, and no gesture handler is registered. *)
Definition bare (c : Component) : Prop :=
  hammer c = None
  /\ g (scene c) = []
  /\ mapGroup_circle (scene c) = None
  /\ degreesGroup (scene c) = None
  /\ children (clippedGroup (scene c)) = [background]
  /\ children (clipPath (scene c)) = [circle_clip].

(** The tick ring is in the drawing. *)
Definition shows_tick_marks (c : Component) : bool :=
  match degreesGroup (scene c) with
  | Some ring => negb (Nat.eqb (List.length (children ring)) 0)
  | None => false
  end.

(** [x] is finite and below [10^21] in magnitude: the range in which
    [toFixed] writes plain digits. *)
Definition fixed_range (x : float) : bool :=
  match Prim2SF x with
  | S754_zero _ => true
  | S754_finite _ m e => negb (at_least_1e21 m e)
  | _ => false
  end.

(** *** Views of the state used by the properties of the whole component *)

(** An event that Hammer delivers: it reaches a handler only once the
    [.then] callback has registered one. *)
Definition hammer_event (ev : Event) : bool :=
  match ev with
  | PanStart | PanMove _ _ | PinchStart | Pinch _ => true
  | _ => false
  end.

(** An event that can come while the component is mounted and the request
    is still pending. *)
Definition before_load (ev : Event) : bool :=
  match ev with
  | Unmount | Settle _ => false
  | _ => true
  end.

(** What a child of [g] is: the feature bound to it, its tag and its text
    content. *)
Definition shape_of (b : Bound) : Feature * string * option string :=
  (datum b, tag (node b), text (node b)).

(** The paths and the labels are those of the current projection. *)
Definition in_sync (c : Component) : Prop :=
  forall b, In b (g (scene c)) ->
    (tag (node b) = "path" ->
     rendered_d b = Some (path_d (projection c) (datum b)))
    /\ (tag (node b) = "text" ->
        get_attr "transform" (attrs (node b))
        = Some (label_transform (projection c) (datum b))).

(** *** The earlier revision of the pan handler

    The revision of the component without the coordinate readout and the
    labels: [updateMap] redraws the paths only, and the pan-move handler
    stores the pitch as computed. *)

Definition updateMap_earlier (c : Component) : Component :=
  let p := {| scale := scale (projection c);
              translate := translate (projection c);
              rotate := rotationRef c |} in
  let c := with_projection p c in
  let paths := selectAll_attr "path" "d" (path_d p) (g (scene c)) in
  with_scene (with_g paths (scene c)) c.

Definition panmove_earlier (ev_deltaX ev_deltaY : float) (h : Gesture)
    (c : Component) : Result (Gesture * Component) :=
  let '(x, y, _) := rotationRef c in
  let k := pan_k (k (zoomRef c)) in
  let deltaX := ev_deltaX - lastDeltaX h in
  let deltaY := ev_deltaY - lastDeltaY h in
  let c := with_rotationRef (x + deltaX * k, y - deltaY * k, 0) c in
  let c := updateMap_earlier c in
  Ok ({| lastDeltaX := ev_deltaX; lastDeltaY := ev_deltaY;
         initialScale := initialScale h |}, c).

(** What the drawing holds, the attributes that a redraw rewrites apart:
    the shapes of [g], the edge circle, the tick ring, the clipped
    background and the clip path. *)
Definition layout (c : Component)
    : list (Feature * string * option string) * option Element
      * option Group * Group * Group :=
  (map shape_of (g (scene c)), mapGroup_circle (scene c),
   degreesGroup (scene c), clippedGroup (scene c), clipPath (scene c)).

(** The request is rejected. *)
Definition rejects (ev : Event) : bool :=
  match ev with
  | Settle (Rejected _) => true
  | _ => false
  end.

(** A tick of a pan. *)
Definition pan_tick (ev : Event) : bool :=
  match ev with
  | PanMove _ _ => true
  | _ => false
  end.

(** The children of [g] that are country paths. *)
Definition paths (c : Component) : list Bound :=
  filter (fun b => is_tag "path" (node b)) (g (scene c)).

(** The [transform] attribute that the zoom listener gives [g] at zoom
    scale [zk]: a scaling about the centre of the view. *)
Definition g_transform (zk : float) : Value :=
  Str ("translate(" ++ Number_toString (width / 2) ++ ", "
       ++ Number_toString (height / 2) ++ ") scale("
       ++ Number_toString zk ++ ") translate("
       ++ Number_toString (- width / 2) ++ ", "
       ++ Number_toString (- height / 2) ++ ")")%string.

(** The zoom scale is shown: [g] is scaled by it, or carries no transform
    while no zoom event has been dispatched. *)
Definition zoom_shown (c : Component) : Prop :=
  zoomRef c = svg_zoom c
  /\ (get_attr "transform" (g_attrs (scene c)) = Some (g_transform (k (zoomRef c)))
      \/ (g_attrs (scene c) = [] /\ zoomRef c = zoomIdentity)).

(** * Properties *)

(** ** Facts about binary64 numbers

    The primitive operations are specified by [SpecFloat]; the facts below
    are read off that specification. *)

(** *** Comparisons *)

Lemma SFcompare_refl (s : spec_float) : s <> S754_nan -> SFcompare s s = Some Eq.
Proof.
  destruct s as [b|b| |b m e]; intros H; try congruence; simpl.
  - reflexivity.
  - destruct b; reflexivity.
  - rewrite Z.compare_refl, Pos.compare_cont_refl. destruct b; reflexivity.
Qed.

Lemma SFcompare_antisym (a b : spec_float) :
  SFcompare b a = option_map CompOpp (SFcompare a b).
Proof.
  destruct a as [sa|sa| |sa ma ea], b as [sb|sb| |sb mb eb]; simpl; try reflexivity;
    try (destruct sa; reflexivity); try (destruct sb; reflexivity);
    try (destruct sa, sb; reflexivity).
  destruct sa, sb; simpl; try reflexivity;
    rewrite (Z.compare_antisym ea eb); destruct (ea ?= eb)%Z; simpl; try reflexivity;
    rewrite (Pos.compare_cont_antisym); simpl; try reflexivity.
  rewrite CompOpp_involutive. reflexivity.
Qed.

Lemma is_nan_spec (v : float) : is_nan v = true <-> Prim2SF v = S754_nan.
Proof.
  unfold is_nan. rewrite eqb_spec. unfold SFeqb. split.
  - destruct (Prim2SF v) eqn:E; try reflexivity;
      rewrite SFcompare_refl by discriminate; discriminate.
  - intros ->. reflexivity.
Qed.

Lemma leb_not_nan (a b : float) : (a <=? b) = true -> is_nan a = false /\ is_nan b = false.
Proof.
  rewrite leb_spec. unfold SFleb. intros H.
  split; apply not_true_is_false; rewrite is_nan_spec; intros E; rewrite E in H;
    [ | destruct (Prim2SF a) ]; discriminate.
Qed.

Lemma ltb_false_leb (a b : float) :
  is_nan a = false -> is_nan b = false -> (a <? b) = false -> (b <=? a) = true.
Proof.
  intros Ha Hb. rewrite ltb_spec, leb_spec. unfold SFltb, SFleb.
  rewrite (SFcompare_antisym (Prim2SF a) (Prim2SF b)).
  destruct (SFcompare (Prim2SF a) (Prim2SF b)) as [[]|] eqn:E; simpl; try easy.
  intros _. exfalso.
  apply not_true_iff_false in Ha, Hb. rewrite is_nan_spec in Ha, Hb.
  destruct (Prim2SF a), (Prim2SF b); simpl in E; try discriminate; congruence.
Qed.

Lemma ltb_leb (a b : float) : (a <? b) = true -> (a <=? b) = true.
Proof.
  rewrite ltb_spec, leb_spec. unfold SFltb, SFleb.
  destruct (SFcompare (Prim2SF a) (Prim2SF b)) as [[]|]; easy.
Qed.

Lemma leb_refl (a : float) : is_nan a = false -> (a <=? a) = true.
Proof.
  intros Ha. rewrite leb_spec. unfold SFleb. rewrite SFcompare_refl; [reflexivity|].
  apply not_true_iff_false in Ha. now rewrite is_nan_spec in Ha.
Qed.

Lemma Math_min_not_nan (a b : float) :
  is_nan a = false -> is_nan b = false ->
  (Math_min a b = a \/ Math_min a b = b) /\ (Math_min a b <=? a) = true
  /\ (Math_min a b <=? b) = true.
Proof.
  intros Ha Hb. unfold Math_min. rewrite Ha, Hb. simpl.
  destruct (a <? b) eqn:Hab.
  - repeat split; auto using leb_refl, ltb_leb.
  - destruct (b <? a) eqn:Hba.
    + repeat split; auto using leb_refl, ltb_leb.
    + destruct (get_sign a); repeat split; auto using leb_refl, ltb_false_leb.
Qed.

Lemma Math_max_not_nan (a b : float) :
  is_nan a = false -> is_nan b = false ->
  (Math_max a b = a \/ Math_max a b = b) /\ (a <=? Math_max a b) = true
  /\ (b <=? Math_max a b) = true.
Proof.
  intros Ha Hb. unfold Math_max. rewrite Ha, Hb. simpl.
  destruct (a <? b) eqn:Hab.
  - repeat split; auto using leb_refl, ltb_leb.
  - destruct (b <? a) eqn:Hba.
    + repeat split; auto using leb_refl, ltb_leb.
    + destruct (get_sign a); repeat split; auto using leb_refl, ltb_false_leb.
Qed.

(** Clamping a number that is not NaN lands in the interval. *)
Lemma clamp_within (lo hi v : float) :
  (lo <=? hi) = true -> is_nan v = false ->
  within lo hi (Math_max lo (Math_min hi v)) = true.
Proof.
  intros Hlh Hv. destruct (leb_not_nan _ _ Hlh) as [Hlo Hhi].
  destruct (Math_min_not_nan hi v Hhi Hv) as (Hc & Hmh & _).
  assert (Hm : is_nan (Math_min hi v) = false) by (destruct Hc as [-> | ->]; assumption).
  destruct (Math_max_not_nan lo _ Hlo Hm) as (Hc' & Hl & _).
  unfold within. rewrite Hl. simpl.
  destruct Hc' as [-> | ->]; assumption.
Qed.

Lemma clamp_nan (lo hi v : float) :
  is_nan v = true -> is_nan (Math_max lo (Math_min hi v)) = true.
Proof.
  intros Hv. unfold Math_max, Math_min. rewrite Hv, orb_true_r. simpl.
  rewrite orb_true_r. reflexivity.
Qed.

Lemma SFcompare_Eq_eq (a b : spec_float) :
  SFcompare a b = Some Eq -> (forall s, a <> S754_zero s) -> a = b.
Proof.
  intros H Hz.
  destruct a as [sa|sa| |sa ma ea], b as [sb|sb| |sb mb eb]; simpl in H;
    try discriminate; try (destruct sa; discriminate); try (destruct sb; discriminate).
  - exfalso. eapply Hz. reflexivity.
  - destruct sa, sb; try discriminate; reflexivity.
  - destruct sa, sb; try discriminate;
      destruct (ea ?= eb)%Z eqn:He; try discriminate;
      apply Z.compare_eq in He; subst eb.
    + destruct (Pos.compare_cont Eq ma mb) eqn:Hm; try discriminate.
      apply Pos.compare_eq in Hm. now subst.
    + injection H as H. apply Pos.compare_eq in H. now subst.
Qed.

Lemma is_zero_spec (a : float) :
  is_zero a = true <-> exists s, Prim2SF a = S754_zero s.
Proof.
  unfold is_zero. rewrite eqb_spec. unfold SFeqb.
  change (Prim2SF zero) with (S754_zero false).
  destruct (Prim2SF a) as [s|s| |s m e]; simpl; split; intros H;
    try discriminate; try (destruct s; discriminate); eauto;
    try (destruct H as [? H]; discriminate).
Qed.

(** Numbers that compare equal are the same number, signed zeros apart. *)
Lemma eqb_eq_nonzero (a b : float) :
  (a =? b) = true -> is_zero a = false -> a = b.
Proof.
  rewrite eqb_spec. unfold SFeqb. intros H Hz. apply Prim2SF_inj.
  apply SFcompare_Eq_eq.
  - destruct (SFcompare (Prim2SF a) (Prim2SF b)) as [[]|]; easy.
  - intros s E. apply not_true_iff_false in Hz. apply Hz.
    apply is_zero_spec. eauto.
Qed.

Lemma not_ltb_eqb (a b : float) :
  is_nan a = false -> is_nan b = false ->
  (a <? b) = false -> (b <? a) = false -> (a =? b) = true.
Proof.
  intros Ha Hb. rewrite !ltb_spec, eqb_spec. unfold SFltb, SFeqb.
  rewrite (SFcompare_antisym (Prim2SF a) (Prim2SF b)).
  destruct (SFcompare (Prim2SF a) (Prim2SF b)) as [[]|] eqn:E; simpl; try easy.
  intros _ _. exfalso.
  apply not_true_iff_false in Ha, Hb. rewrite is_nan_spec in Ha, Hb.
  destruct (Prim2SF a), (Prim2SF b); simpl in E; try discriminate; congruence.
Qed.

Lemma leb_ltb_false (a b : float) : (a <=? b) = true -> (b <? a) = false.
Proof.
  rewrite leb_spec, ltb_spec. unfold SFleb, SFltb.
  rewrite (SFcompare_antisym (Prim2SF a) (Prim2SF b)).
  destruct (SFcompare (Prim2SF a) (Prim2SF b)) as [[]|]; easy.
Qed.

(** Clamping is the identity on the interval. *)
Lemma clamp_id (lo hi v : float) :
  is_zero lo = false -> is_zero hi = false ->
  within lo hi v = true -> Math_max lo (Math_min hi v) = v.
Proof.
  intros Zlo Zhi H. unfold within in H. apply andb_prop in H. destruct H as [Hl Hh].
  destruct (leb_not_nan _ _ Hl) as [Nlo Nv].
  destruct (leb_not_nan _ _ Hh) as [_ Nhi].
  assert (Hmin : Math_min hi v = v).
  { unfold Math_min. rewrite Nhi, Nv. simpl.
    rewrite (leb_ltb_false _ _ Hh).
    destruct (v <? hi) eqn:E; [reflexivity|].
    destruct (get_sign hi); [|reflexivity].
    apply eqb_eq_nonzero; [|assumption].
    apply not_ltb_eqb; auto using leb_ltb_false. }
  rewrite Hmin. unfold Math_max. rewrite Nlo, Nv. simpl.
  destruct (lo <? v) eqn:E; [reflexivity|].
  rewrite (leb_ltb_false _ _ Hl).
  destruct (get_sign lo); [reflexivity|].
  apply eqb_eq_nonzero; [|assumption].
  apply not_ltb_eqb; auto using leb_ltb_false.
Qed.

Local Abbreviation prec := FloatOps.prec.
Local Abbreviation emax := FloatOps.emax.

Lemma iter_pos_invariant {A : Type} (P : A -> Prop) (f : A -> A) :
  (forall a, P a -> P (f a)) -> forall p a, P a -> P (iter_pos f p a).
Proof.
  intros Hf. induction p as [p IH|p IH|]; intros a Ha; simpl; auto.
Qed.

Lemma shr_1_nonneg (mrs : shr_record) : (0 <= shr_m mrs)%Z -> (0 <= shr_m (shr_1 mrs))%Z.
Proof.
  destruct mrs as [m r s]. simpl. destruct m as [|[p|p|]|p]; simpl; lia.
Qed.

Lemma shr_fexp_nonneg (m e : Z) (l : location) :
  (0 <= m)%Z -> (0 <= shr_m (fst (shr_fexp prec emax m e l)))%Z.
Proof.
  intros Hm. unfold shr_fexp, shr.
  assert (H0 : (0 <= shr_m (shr_record_of_loc m l))%Z)
    by (destruct l as [|[]]; exact Hm).
  destruct (fexp prec emax (Zdigits2 m + e) - e)%Z; simpl; auto.
  apply iter_pos_invariant; auto using shr_1_nonneg.
Qed.

Lemma round_nearest_even_nonneg (m : Z) (l : location) :
  (0 <= m)%Z -> (0 <= round_nearest_even m l)%Z.
Proof.
  intros Hm. destruct l as [|[]]; simpl; try lia. destruct (Z.even m); lia.
Qed.

(** Rounding a non-negative mantissa never yields NaN. *)
Lemma binary_round_aux_not_nan (sx : bool) (mx ex : Z) (lx : location) :
  (0 <= mx)%Z -> binary_round_aux prec emax sx mx ex lx <> S754_nan.
Proof.
  intros Hm. unfold binary_round_aux.
  pose proof (shr_fexp_nonneg mx ex lx Hm) as H1.
  destruct (shr_fexp prec emax mx ex lx) as [mrs' e']. simpl in H1.
  pose proof (shr_fexp_nonneg _ e' loc_Exact
                (round_nearest_even_nonneg _ (loc_of_shr_record mrs') H1)) as H2.
  destruct (shr_fexp prec emax _ e' loc_Exact) as [mrs'' e'']. simpl in H2.
  destruct (shr_m mrs''); try lia; try discriminate.
  destruct (e'' <=? emax - prec)%Z; discriminate.
Qed.

Lemma binary_normalize_not_nan (m e : Z) (sz : bool) :
  binary_normalize prec emax m e sz <> S754_nan.
Proof.
  destruct m; simpl; try discriminate; unfold binary_round;
    destruct (shl_align _ _ _); apply binary_round_aux_not_nan; lia.
Qed.

Lemma is_finite_spec (a : float) : is_finite a = sf_finite (Prim2SF a).
Proof.
  unfold is_finite, is_infinity. 
  destruct (is_nan a) eqn:Hn.
  - apply is_nan_spec in Hn. rewrite Hn. reflexivity.
  - apply not_true_iff_false in Hn. rewrite is_nan_spec in Hn.
    rewrite eqb_spec, abs_spec. unfold SFeqb.
    change (Prim2SF infinity) with (S754_infinity false).
    destruct (Prim2SF a) as [s|s| |s m e]; simpl; try reflexivity; congruence.
Qed.

Lemma not_nan_spec (a : float) : is_nan a = false <-> Prim2SF a <> S754_nan.
Proof. rewrite <- not_true_iff_false, is_nan_spec. reflexivity. Qed.

(** A finite number minus a number is a number. *)
Lemma sub_not_nan (a b : float) :
  is_finite a = true -> is_nan b = false -> is_nan (a - b) = false.
Proof.
  rewrite is_finite_spec, !not_nan_spec, sub_spec. unfold SF64sub.
  destruct (Prim2SF a) as [sa|sa| |sa ma ea], (Prim2SF b) as [sb|sb| |sb mb eb];
    simpl; intros Ha Hb; try discriminate; try congruence.
  - destruct sa, sb; discriminate.
  - apply binary_normalize_not_nan.
Qed.

(** A number times a finite non-zero number is a number. *)
Lemma mul_not_nan (a b : float) :
  is_nan a = false -> is_finite b = true -> is_zero b = false ->
  is_nan (a * b) = false.
Proof.
  intros Ha Hb Hz. rewrite is_finite_spec in Hb.
  apply not_true_iff_false in Hz. rewrite is_zero_spec in Hz.
  rewrite not_nan_spec in *. rewrite mul_spec. unfold SF64mul.
  destruct (Prim2SF a) as [sa|sa| |sa ma ea], (Prim2SF b) as [sb|sb| |sb mb eb];
    simpl in *; try discriminate; try congruence.
  all: try (exfalso; eauto; fail).
  apply binary_round_aux_not_nan. lia.
Qed.

Lemma mul_comm_not_nan (a b : float) :
  is_finite a = true -> is_zero a = false -> is_nan b = false ->
  is_nan (a * b) = false.
Proof.
  intros Ha Hz Hb. rewrite is_finite_spec in Ha.
  apply not_true_iff_false in Hz. rewrite is_zero_spec in Hz.
  rewrite not_nan_spec in *. rewrite mul_spec. unfold SF64mul.
  destruct (Prim2SF a) as [sa|sa| |sa ma ea], (Prim2SF b) as [sb|sb| |sb mb eb];
    simpl in *; try discriminate; try congruence.
  all: try (exfalso; eauto; fail).
  apply binary_round_aux_not_nan. lia.
Qed.

Lemma finite_not_nan (a : float) : is_finite a = true -> is_nan a = false.
Proof.
  rewrite is_finite_spec, not_nan_spec. destruct (Prim2SF a); simpl; congruence.
Qed.

(** A number in an interval with a positive lower end and a finite upper end
    is finite and not zero. *)
Lemma within_finite_nonzero (lo hi v : float) :
  (zero <? lo) = true -> is_finite hi = true -> within lo hi v = true ->
  is_finite v = true /\ is_zero v = false.
Proof.
  unfold within. rewrite ltb_spec, !is_finite_spec, andb_true_iff, !leb_spec.
  rewrite <- not_true_iff_false, is_zero_spec.
  change (Prim2SF zero) with (S754_zero false). unfold SFltb, SFleb.
  destruct (Prim2SF lo) as [sl|sl| |sl ml el], (Prim2SF hi) as [sh|sh| |sh mh eh],
    (Prim2SF v) as [sv|sv| |sv mv ev]; simpl; intros H0 Hh [Hl Hu];
    try discriminate; try (destruct sl; discriminate);
    try (destruct sv; discriminate);
    try (split; [reflexivity | intros [? ?]; discriminate]).
  all: try (destruct sl, sv; discriminate).
Qed.

Lemma digits2_pos_size (p : positive) : digits2_pos p = Pos.size p.
Proof. induction p; simpl; congruence. Qed.

Lemma Zdigits2_log2 (m : Z) : (0 < m)%Z -> Zdigits2 m = (Z.log2 m + 1)%Z.
Proof.
  destruct m as [|p|p]; try lia. intros _. simpl.
  rewrite digits2_pos_size. destruct p; simpl; lia.
Qed.

Lemma Zdigits2_bounds (m : Z) :
  (0 < m)%Z -> (2 ^ (Zdigits2 m - 1) <= m < 2 ^ Zdigits2 m)%Z.
Proof.
  intros Hm. rewrite (Zdigits2_log2 m Hm).
  replace (Z.log2 m + 1 - 1)%Z with (Z.log2 m) by lia.
  apply Z.log2_spec. exact Hm.
Qed.

Lemma Zdigits2_unique (m d : Z) :
  (2 ^ (d - 1) <= m < 2 ^ d)%Z -> (1 <= d)%Z -> Zdigits2 m = d.
Proof.
  intros H Hd.
  assert (0 < m)%Z by (pose proof (Z.pow_pos_nonneg 2 (d - 1)); lia).
  rewrite Zdigits2_log2 by assumption.
  rewrite (Z.log2_unique m (d - 1)); try lia.
  replace (Z.succ (d - 1)) with d by lia. exact H.
Qed.

Lemma Zdigits2_pos (m : Z) : (0 < m)%Z -> (1 <= Zdigits2 m)%Z.
Proof.
  intros Hm. rewrite Zdigits2_log2 by assumption.
  pose proof (Z.log2_nonneg m). lia.
Qed.

Lemma Zdigits2_div_pow2 (m n : Z) :
  (0 < m)%Z -> (0 <= n < Zdigits2 m)%Z ->
  (0 < m / 2 ^ n)%Z /\ Zdigits2 (m / 2 ^ n) = (Zdigits2 m - n)%Z.
Proof.
  intros Hm Hn.
  pose proof (Zdigits2_bounds m Hm) as Hb.
  assert (Hp : (0 < 2 ^ n)%Z) by (apply Z.pow_pos_nonneg; lia).
  assert (Hlo : (2 ^ (Zdigits2 m - n - 1) <= m / 2 ^ n)%Z).
  { apply Z.div_le_lower_bound; [lia|].
    rewrite <- Z.pow_add_r by lia.
    replace (n + (Zdigits2 m - n - 1))%Z with (Zdigits2 m - 1)%Z by lia. lia. }
  assert (Hhi : (m / 2 ^ n < 2 ^ (Zdigits2 m - n))%Z).
  { apply Z.div_lt_upper_bound; [lia|].
    rewrite <- Z.pow_add_r by lia.
    replace (n + (Zdigits2 m - n))%Z with (Zdigits2 m) by lia. lia. }
  split.
  - pose proof (Z.pow_pos_nonneg 2 (Zdigits2 m - n - 1)). lia.
  - apply Zdigits2_unique; lia.
Qed.

Lemma Zdigits2_succ (m : Z) :
  (0 < m)%Z -> (Zdigits2 m <= Zdigits2 (m + 1) <= Zdigits2 m + 1)%Z.
Proof.
  intros Hm. rewrite !Zdigits2_log2 by lia.
  pose proof (Z.log2_le_mono m (m + 1)).
  pose proof (Z.log2_succ_le m). unfold Z.succ in *. lia.
Qed.

Lemma shr_1_m (mrs : shr_record) :
  (0 <= shr_m mrs)%Z -> shr_m (shr_1 mrs) = (shr_m mrs / 2)%Z.
Proof.
  destruct mrs as [m r s]. simpl. intros Hm.
  destruct m as [|[p|p|]|p]; try lia; simpl shr_m; try reflexivity.
  - apply Z.div_unique with (r := 1%Z); lia.
  - apply Z.div_unique with (r := 0%Z); lia.
Qed.

Lemma iter_shr_1_m (p : positive) (mrs : shr_record) :
  (0 <= shr_m mrs)%Z ->
  shr_m (iter_pos shr_1 p mrs) = (shr_m mrs / 2 ^ Zpos p)%Z.
Proof.
  revert mrs. induction p as [p IH|p IH|]; intros mrs Hm; simpl iter_pos.
  - rewrite IH, IH, shr_1_m by
      (try apply iter_pos_invariant; auto using shr_1_nonneg).
    rewrite !Z.div_div by (try apply Z.pow_pos_nonneg; lia).
    f_equal.
    replace (Zpos p~1) with (1 + (Zpos p + Zpos p))%Z by lia.
    rewrite !Z.pow_add_r by lia. lia.
  - rewrite IH, IH by (try apply iter_pos_invariant; auto using shr_1_nonneg).
    rewrite !Z.div_div by (try apply Z.pow_pos_nonneg; lia).
    f_equal.
    replace (Zpos p~0) with (Zpos p + Zpos p)%Z by lia.
    rewrite !Z.pow_add_r by lia. lia.
  - rewrite shr_1_m by assumption. reflexivity.
Qed.

Lemma shr_m_e (mrs : shr_record) (e n : Z) :
  (0 <= shr_m mrs)%Z ->
  shr_m (fst (shr mrs e n)) = (shr_m mrs / 2 ^ Z.max 0 n)%Z
  /\ snd (shr mrs e n) = (e + Z.max 0 n)%Z.
Proof.
  intros Hm. destruct n as [|p|p]; simpl.
  - rewrite Z.div_1_r. lia.
  - rewrite iter_shr_1_m by assumption. split; [reflexivity|lia].
  - rewrite Z.div_1_r. lia.
Qed.

Lemma fexp_eq (z : Z) : fexp prec emax z = Z.max (z - 53) (-1074).
Proof. reflexivity. Qed.

Lemma shr_m_of_loc (m : Z) (l : location) : shr_m (shr_record_of_loc m l) = m.
Proof. destruct l as [|[]]; reflexivity. Qed.

(** One rounding shift in the normal range: the mantissa keeps at most 53
    digits and the value keeps its magnitude. *)
Lemma shr_fexp_normal (m e : Z) (l : location) :
  (0 < m)%Z -> (-1021 <= Zdigits2 m + e)%Z ->
  let r := shr_fexp prec emax m e l in
  (0 < shr_m (fst r))%Z
  /\ Zdigits2 (shr_m (fst r)) = Z.min (Zdigits2 m) 53
  /\ snd r = (e + Z.max 0 (Zdigits2 m - 53))%Z.
Proof.
  intros Hm Hd. unfold shr_fexp. rewrite fexp_eq.
  replace (Z.max (Zdigits2 m + e - 53) (-1074) - e)%Z with (Zdigits2 m - 53)%Z by lia.
  destruct (shr_m_e (shr_record_of_loc m l) e (Zdigits2 m - 53)) as [H1 H2].
  { rewrite shr_m_of_loc. lia. }
  cbv zeta. rewrite H1, H2, shr_m_of_loc.
  pose proof (Zdigits2_pos m Hm).
  destruct (Zdigits2_div_pow2 m (Z.max 0 (Zdigits2 m - 53)) Hm) as [H3 H4]; [lia|].
  repeat split; try assumption. lia.
Qed.

Lemma round_nearest_even_cases (m : Z) (l : location) :
  round_nearest_even m l = m \/ round_nearest_even m l = (m + 1)%Z.
Proof. destruct l as [|[]]; simpl; auto. destruct (Z.even m); auto. Qed.

(** Rounding a positive mantissa whose value lies far inside the normal
    range gives a finite non-zero number of about the same magnitude. *)
Lemma binary_round_aux_finite (sx : bool) (mx ex : Z) (lx : location) :
  (0 < mx)%Z -> (-1021 <= Zdigits2 mx + ex <= 900)%Z -> (ex <= 900)%Z ->
  exists m' e',
    binary_round_aux prec emax sx mx ex lx = S754_finite sx m' e'
    /\ (ex <= e' <= Z.max ex (Zdigits2 mx + ex - 53) + 1)%Z
    /\ (Zdigits2 mx + ex <= Zpos (digits2_pos m') + e' <= Zdigits2 mx + ex + 1)%Z.
Proof.
  intros Hm Hd He. unfold binary_round_aux.
  pose proof (shr_fexp_normal mx ex lx Hm ltac:(lia)) as H1. cbv zeta in H1.
  destruct (shr_fexp prec emax mx ex lx) as [mrs1 e1]. simpl in H1.
  destruct H1 as (P1 & D1 & E1).
  set (m1 := round_nearest_even (shr_m mrs1) (loc_of_shr_record mrs1)).
  assert (Hm1 : (0 < m1)%Z /\ (Zdigits2 (shr_m mrs1) <= Zdigits2 m1 <= Zdigits2 (shr_m mrs1) + 1)%Z).
  { pose proof (Zdigits2_succ _ P1).
    destruct (round_nearest_even_cases (shr_m mrs1) (loc_of_shr_record mrs1)) as [E|E];
      unfold m1; rewrite E; split; lia. }
  destruct Hm1 as [P1' D1'].
  pose proof (shr_fexp_normal m1 e1 loc_Exact P1' ltac:(lia)) as H2. cbv zeta in H2.
  destruct (shr_fexp prec emax m1 e1 loc_Exact) as [mrs2 e2]. simpl in H2.
  destruct H2 as (P2 & D2 & E2).
  destruct (shr_m mrs2) as [|m'|m'] eqn:Em; try lia.
  assert (Hle : (e2 <=? emax - prec)%Z = true).
  { apply Z.leb_le. change (emax - prec)%Z with 971%Z. lia. }
  rewrite Hle. exists m', e2. split; [reflexivity|].
  simpl in D2. lia.
Qed.

Lemma Zdigits2_range (m a b : Z) :
  (0 <= a)%Z -> (2 ^ a <= m < 2 ^ b)%Z -> (a + 1 <= Zdigits2 m <= b)%Z.
Proof.
  intros Ha H.
  assert (Hm : (0 < m)%Z) by (pose proof (Z.pow_pos_nonneg 2 a); lia).
  rewrite Zdigits2_log2 by assumption.
  pose proof (proj1 (Z.log2_le_pow2 m a Hm) (proj1 H)).
  pose proof (proj1 (Z.log2_lt_pow2 m b Hm) (proj2 H)). lia.
Qed.

(** The square root of a normal number between 1/2 and 16 is a normal
    number between 1/2 and 4. *)
Lemma SFsqrt_finite (m : positive) (e : Z) :
  Zpos (digits2_pos m) = 53%Z -> (-53 <= e <= -49)%Z ->
  exists m2 e2,
    SFsqrt prec emax (S754_finite false m e) = S754_finite false m2 e2
    /\ (-53 <= e2 <= -50)%Z /\ (0 <= Zpos (digits2_pos m2) + e2 <= 3)%Z.
Proof.
  intros Hd He.
  pose proof (Zdigits2_bounds (Zpos m) ltac:(lia)) as Hb.
  change (Zdigits2 (Zpos m)) with (Zpos (digits2_pos m)) in Hb. rewrite Hd in Hb.
  change (2 ^ (53 - 1))%Z with 4503599627370496%Z in Hb.
  change (2 ^ 53)%Z with 9007199254740992%Z in Hb.
  unfold SFsqrt, SFsqrt_core_binary.
  change (Zdigits2 (Zpos m)) with (Zpos (digits2_pos m)). rewrite Hd.
  set (e' := Z.min (fexp prec emax (Z.div2 (53 + e + 1))) (Z.div2 e)).
  set (s := (e - 2 * e')%Z).
  assert (Hes : (-53 <= e' <= -51)%Z /\ (s = 52 \/ s = 53)%Z).
  { unfold s, e'. rewrite fexp_eq, !Z.div2_div.
    assert (e = -53 \/ e = -52 \/ e = -51 \/ e = -50 \/ e = -49)%Z as Hc by lia.
    destruct Hc as [-> | [-> | [-> | [-> | ->]]]]; vm_compute; intuition congruence. }
  destruct Hes as [He' Hs].
  set (m' := match s with Zpos _ => Z.shiftl (Zpos m) s | Z0 => Zpos m | Zneg _ => 0%Z end).
  assert (Hm' : (2 ^ 104 <= m' < 2 ^ 106)%Z).
  { unfold m'. destruct Hs as [-> | ->]; rewrite Z.shiftl_mul_pow2 by lia.
    - assert (E1 : (2 ^ 104 = 4503599627370496 * 2 ^ 52)%Z) by reflexivity.
      assert (E2 : (2 ^ 106 = 2 * 9007199254740992 * 2 ^ 52)%Z) by reflexivity.
      rewrite E1, E2. pose proof (Z.pow_pos_nonneg 2 52). nia.
    - assert (E1 : (2 ^ 104 = 2251799813685248 * 2 ^ 53)%Z) by reflexivity.
      assert (E2 : (2 ^ 106 = 9007199254740992 * 2 ^ 53)%Z) by reflexivity.
      rewrite E1, E2. pose proof (Z.pow_pos_nonneg 2 53). nia. }
  clearbody m'.
  pose proof (Z.sqrtrem_spec m' ltac:(pose proof (Z.pow_pos_nonneg 2 104); lia)) as Hq.
  destruct (Z.sqrtrem m') as [q r]. destruct Hq as [Hq Hr].
  assert (Hqb : (2 ^ 52 <= q < 2 ^ 53)%Z).
  { assert (E1 : (2 ^ 104 = 2 ^ 52 * 2 ^ 52)%Z) by reflexivity.
    assert (E2 : (2 ^ 106 = 2 ^ 53 * 2 ^ 53)%Z) by reflexivity.
    rewrite E1, E2 in Hm'.
    pose proof (Z.pow_pos_nonneg 2 52 ltac:(lia) ltac:(lia)).
    pose proof (Z.pow_pos_nonneg 2 53 ltac:(lia) ltac:(lia)).
    split; nia. }
  assert (Hdq : Zdigits2 q = 53%Z) by (apply Zdigits2_unique; [exact Hqb | lia]).
  destruct (binary_round_aux_finite false q e'
              (if (r =? 0)%Z then loc_Exact
               else loc_Inexact (if (r <=? q)%Z then Lt else Gt)))
    as (m2 & e2 & E & B1 & B2).
  { pose proof (Z.pow_pos_nonneg 2 52). lia. }
  { rewrite Hdq. lia. }
  { lia. }
  exists m2, e2. rewrite Hdq in B1, B2. split; [exact E | lia].
Qed.

(** [0.3] divided by a normal number between 1/2 and 8 is finite and not
    zero. *)
Lemma SFdiv_baseK_finite (m2 : positive) (e2 : Z) :
  (-53 <= e2 <= -50)%Z -> (0 <= Zpos (digits2_pos m2) + e2 <= 3)%Z ->
  exists m3 e3,
    SFdiv prec emax (S754_finite false 5404319552844595 (-54))
      (S754_finite false m2 e2) = S754_finite false m3 e3.
Proof.
  intros He2 HD. unfold SFdiv, SFdiv_core_binary.
  change (Zdigits2 (Zpos 5404319552844595)) with 53%Z.
  change (Zdigits2 (Zpos m2)) with (Zpos (digits2_pos m2)).
  set (d2 := Zpos (digits2_pos m2)) in *.
  assert (Hd2 : (1 <= d2)%Z) by (unfold d2; lia).
  pose proof (Zdigits2_bounds (Zpos m2) ltac:(lia)) as Hb.
  change (Zdigits2 (Zpos m2)) with d2 in Hb.
  rewrite fexp_eq.
  replace (Z.min (Z.max (53 + -54 - (d2 + e2) - 53) (-1074)) (-54 - e2))
    with (-54 - (d2 + e2))%Z by lia.
  replace (-54 - e2 - (-54 - (d2 + e2)))%Z with d2 by lia.
  set (m' := match d2 with Zpos _ => Z.shiftl 5404319552844595 d2
                      | Z0 => 5404319552844595%Z | Zneg _ => 0%Z end).
  assert (Hm' : m' = (5404319552844595 * 2 ^ d2)%Z).
  { unfold m'. destruct d2 eqn:E; try lia. rewrite Z.shiftl_mul_pow2; lia. }
  clearbody m'.
  pose proof (Z.div_eucl_eq m' (Zpos m2) ltac:(lia)) as Hq.
  pose proof (Z.mod_pos_bound m' (Zpos m2) ltac:(lia)) as Hr.
  unfold Z.modulo in Hr.
  destruct (Z.div_eucl m' (Zpos m2)) as [q r].
  assert (Hp : (2 ^ d2 = 2 * 2 ^ (d2 - 1))%Z).
  { replace d2 with (1 + (d2 - 1))%Z at 1 by lia.
    rewrite Z.pow_add_r by lia. reflexivity. }
  assert (Hpp : (0 < 2 ^ (d2 - 1))%Z) by (apply Z.pow_pos_nonneg; lia).
  assert (Hqb : (2 ^ 52 <= q < 2 ^ 54)%Z).
  { assert (E1 : (2 ^ 52 = 4503599627370496)%Z) by reflexivity.
    assert (E2 : (2 ^ 54 = 18014398509481984)%Z) by reflexivity.
    rewrite E1, E2. split; nia. }
  pose proof (Zdigits2_range q 52 54 ltac:(lia) Hqb) as Hdq.
  destruct (binary_round_aux_finite false q (-54 - (d2 + e2))
              (new_location (Zpos m2) r)) as (m3 & e3 & E & _).
  { pose proof (Z.pow_pos_nonneg 2 52). lia. }
  { lia. }
  { lia. }
  exists m3, e3. exact E.
Qed.

(** A number within the scale extent is a normal number between 1/2
    and 16. *)
Lemma within_scaleExtent_spec (zk : float) :
  within 0.5632 8 zk = true ->
  exists m e, Prim2SF zk = S754_finite false m e
              /\ Zpos (digits2_pos m) = 53%Z /\ (-53 <= e <= -49)%Z.
Proof.
  unfold within. rewrite andb_true_iff, !leb_spec. unfold SFleb.
  change (Prim2SF 0.5632) with (S754_finite false 5072854620270127 (-53)).
  change (Prim2SF 8) with (S754_finite false 4503599627370496 (-49)).
  pose proof (Prim2SF_valid zk) as Hv.
  destruct (Prim2SF zk) as [s|s| |s m e]; unfold SFcompare; intros [Hl Hu];
    try discriminate; try (destruct s; discriminate).
  destruct s; [discriminate|].
  exists m, e. split; [reflexivity|].
  unfold SpecFloat.valid_binary, bounded, canonical_mantissa in Hv.
  apply andb_prop in Hv. destruct Hv as [Hc _]. apply Z.eqb_eq in Hc.
  rewrite fexp_eq in Hc.
  destruct (Z.compare_spec (-53) e), (Z.compare_spec e (-49)); try discriminate; lia.
Qed.

(** The pan sensitivity is a finite, non-zero number at every zoom scale
    of the scale extent. *)
Lemma pan_k_finite (zk : float) :
  within 0.5632 8 zk = true ->
  is_finite (pan_k zk) = true /\ is_zero (pan_k zk) = false.
Proof.
  intros H. destruct (within_scaleExtent_spec zk H) as (m & e & E & Hd & He).
  destruct (SFsqrt_finite m e Hd He) as (m2 & e2 & E2 & B1 & B2).
  destruct (SFdiv_baseK_finite m2 e2 B1 B2) as (m3 & e3 & E3).
  assert (Ek : Prim2SF (pan_k zk) = S754_finite false m3 e3).
  { unfold pan_k, Math_sqrt, baseK. rewrite div_spec, sqrt_spec, E.
    unfold SF64div, SF64sqrt. rewrite E2.
    change (Prim2SF 0.3) with (S754_finite false 5404319552844595 (-54)).
    exact E3. }
  split.
  - rewrite is_finite_spec, Ek. reflexivity.
  - apply not_true_iff_false. rewrite is_zero_spec, Ek. intros [s Hs]. discriminate.
Qed.

(** Multiplying by one is exact. *)
Lemma mul_one (a : float) : a * 1 = a.
Proof.
  apply Prim2SF_inj. rewrite mul_spec. unfold SF64mul.
  change (Prim2SF 1) with (S754_finite false 4503599627370496 (-52)).
  pose proof (Prim2SF_valid a) as Hv.
  destruct (Prim2SF a) as [s|s| |s m e]; simpl SFmul;
    try rewrite xorb_false_r; try reflexivity.
  simpl in Hv. unfold bounded, canonical_mantissa in Hv.
  apply andb_prop in Hv. destruct Hv as [Hc Hb]. apply Z.eqb_eq in Hc.
  rewrite Pos.mul_comm.
  unfold binary_round_aux, shr_fexp.
  assert (Hdig : Zdigits2 (Zpos (4503599627370496 * m)) = (Zpos (digits2_pos m) + 52)%Z).
  { cbn [Pos.mul Zdigits2 digits2_pos]. lia. }
  rewrite Hdig.
  replace (Zpos (digits2_pos m) + 52 + (e + -52))%Z with (Zpos (digits2_pos m) + e)%Z by lia.
  rewrite Hc.
  replace (e - (e + -52))%Z with 52%Z by lia.
  cbn [Pos.mul shr shr_record_of_loc iter_pos shr_1 fst snd orb].
  cbn [loc_of_shr_record shr_m round_nearest_even Zdigits2].
  replace (e + -52 + 52)%Z with e by lia.
  rewrite Hc, Z.sub_diag. cbn [shr shr_m shr_record_of_loc].
  rewrite Hb. reflexivity.
Qed.

(** *** Zeros *)

Lemma within_finite (lo hi v : float) :
  is_finite lo = true -> is_finite hi = true -> within lo hi v = true ->
  is_finite v = true.
Proof.
  unfold within. rewrite !is_finite_spec, andb_true_iff, !leb_spec. unfold SFleb.
  destruct (Prim2SF lo) as [sl|sl| |sl ml el], (Prim2SF hi) as [sh|sh| |sh mh eh],
    (Prim2SF v) as [sv|sv| |sv mv ev]; unfold SFcompare, sf_finite;
    intros Hl Hh [H1 H2]; try discriminate; try reflexivity;
    destruct sv; discriminate.
Qed.

(** A zero times a finite number is a zero. *)
Lemma mul_zero_finite (z b : float) :
  is_zero z = true -> is_finite b = true -> is_zero (z * b) = true.
Proof.
  rewrite !is_zero_spec, is_finite_spec, mul_spec. unfold SF64mul.
  intros [s ->].
  destruct (Prim2SF b) as [sb|sb| |sb mb eb]; unfold sf_finite, SFmul;
    intros Hb; try discriminate; eauto.
Qed.

(** Adding a zero keeps a non-zero number as it is, and keeps a zero a
    zero. *)
Lemma add_zero (a z : float) :
  is_zero z = true ->
  (is_zero a = false -> a + z = a) /\ (is_zero a = true -> is_zero (a + z) = true).
Proof.
  rewrite !is_zero_spec. intros [s Hz]. split.
  - rewrite <- not_true_iff_false, is_zero_spec. intros Ha.
    apply Prim2SF_inj. rewrite add_spec, Hz. unfold SF64add.
    destruct (Prim2SF a) as [sa|sa| |sa ma ea]; unfold SFadd; try reflexivity.
    exfalso. eauto.
  - intros [sa Ha]. rewrite add_spec, Hz, Ha. unfold SF64add, SFadd.
    destruct sa, s; eauto.
Qed.

Lemma sub_zero (a z : float) :
  is_zero z = true ->
  (is_zero a = false -> a - z = a) /\ (is_zero a = true -> is_zero (a - z) = true).
Proof.
  rewrite !is_zero_spec. intros [s Hz]. split.
  - rewrite <- not_true_iff_false, is_zero_spec. intros Ha.
    apply Prim2SF_inj. rewrite sub_spec, Hz. unfold SF64sub.
    destruct (Prim2SF a) as [sa|sa| |sa ma ea]; unfold SFsub; try reflexivity.
    exfalso. eauto.
  - intros [sa Ha]. rewrite sub_spec, Hz, Ha. unfold SF64sub, SFsub.
    destruct sa, s; eauto.
Qed.

Lemma SameValueZero_refl (a : float) : SameValueZero a a = true.
Proof.
  unfold SameValueZero. destruct (is_nan a) eqn:E; [reflexivity|].
  simpl. unfold is_nan in E. now apply negb_false_iff in E.
Qed.

Lemma SameValueZero_zeros (a b : float) :
  is_zero a = true -> is_zero b = true -> SameValueZero a b = true.
Proof.
  unfold SameValueZero. rewrite !is_zero_spec. intros [sa Ha] [sb Hb].
  rewrite eqb_spec, Ha, Hb. apply orb_true_r.
Qed.

(** The two zeros lie in every interval around zero. *)
Lemma within_zero (lo hi a b : float) :
  is_zero a = true -> is_zero b = true -> within lo hi a = true ->
  within lo hi b = true.
Proof.
  unfold within. rewrite !is_zero_spec, !leb_spec. intros [sa ->] [sb ->].
  unfold SFleb. destruct (Prim2SF lo), (Prim2SF hi); unfold SFcompare; auto.
Qed.

(** ** The controller *)

(** *** What rendering leaves alone *)

Lemma updateMap_frame (c : Component) :
  rotationRef (updateMap c) = rotationRef c
  /\ zoomRef (updateMap c) = zoomRef c
  /\ svg_zoom (updateMap c) = svg_zoom c
  /\ coordinates (updateMap c) = coordinates c
  /\ hammer (updateMap c) = hammer c
  /\ console (updateMap c) = console c.
Proof. repeat split. Qed.

Lemma zoomed_frame (transform : ZoomTransform) (c : Component) :
  rotationRef (zoomed transform c) = rotationRef c
  /\ zoomRef (zoomed transform c) = transform
  /\ svg_zoom (zoomed transform c) = svg_zoom c
  /\ coordinates (zoomed transform c) = coordinates c
  /\ hammer (zoomed transform c) = hammer c
  /\ console (zoomed transform c) = console c.
Proof. repeat split. Qed.

Lemma zoom_scaleTo_frame (k1 : float) (c : Component) :
  rotationRef (zoom_scaleTo k1 c) = rotationRef c
  /\ k (zoomRef (zoom_scaleTo k1 c)) = zoom_clamp k1
  /\ k (svg_zoom (zoom_scaleTo k1 c)) = zoom_clamp k1
  /\ coordinates (zoom_scaleTo k1 c) = coordinates c
  /\ hammer (zoom_scaleTo k1 c) = hammer c
  /\ console (zoom_scaleTo k1 c) = console c.
Proof. repeat split. Qed.

Lemma wheeled_frame (factor tx ty : float) (c : Component) :
  rotationRef (wheeled factor tx ty c) = rotationRef c
  /\ coordinates (wheeled factor tx ty c) = coordinates c
  /\ hammer (wheeled factor tx ty c) = hammer c
  /\ console (wheeled factor tx ty c) = console c.
Proof.
  unfold wheeled. destruct (k (svg_zoom c) =? _); repeat split.
Qed.

Lemma settle_frame (r : Settlement) (c : Component) :
  rotationRef (settle r c) = rotationRef c
  /\ zoomRef (settle r c) = zoomRef c
  /\ svg_zoom (settle r c) = svg_zoom c
  /\ coordinates (settle r c) = coordinates c.
Proof.
  unfold settle, loaded.
  destruct r as [error|[topology|]]; [repeat split| |];
    destruct (negb (svgRef c)); try (repeat split; fail).
  destruct (topojson_feature topology); repeat split.
Qed.

(** After the request settles the gesture variables, when there are any,
    are the old ones or the initial ones. *)
Lemma settle_hammer (r : Settlement) (c : Component) :
  hammer (settle r c) = hammer c
  \/ hammer (settle r c)
     = Some {| lastDeltaX := 0; lastDeltaY := 0; initialScale := 1 |}.
Proof.
  unfold settle, loaded.
  destruct r as [error|[topology|]]; [left; reflexivity| |];
    destruct (negb (svgRef c)); try (left; reflexivity).
  destruct (topojson_feature topology); [right|left]; reflexivity.
Qed.

(** *** The scale extent *)

Lemma scaleExtent_ordered : (fst scaleExtent <=? snd scaleExtent) = true.
Proof. reflexivity. Qed.

Lemma zoom_clamp_in_extent (k1 : float) :
  is_nan k1 = false -> in_scaleExtent (zoom_clamp k1) = true.
Proof. apply clamp_within. exact scaleExtent_ordered. Qed.

Lemma zoom_clamp_id (k1 : float) :
  in_scaleExtent k1 = true -> zoom_clamp k1 = k1.
Proof. apply clamp_id; reflexivity. Qed.

Lemma in_scaleExtent_finite_nonzero (v : float) :
  in_scaleExtent v = true -> is_finite v = true /\ is_zero v = false.
Proof. apply within_finite_nonzero; reflexivity. Qed.

(** The scale a pinch tick asks for lies in the extent whatever the
    reported ratio. *)
Lemma pinch_scale_in_extent (base ratio : float) :
  in_scaleExtent base = true -> is_nan ratio = false ->
  in_scaleExtent (Math_max 0.5632 (Math_min 8 (base * ratio))) = true.
Proof.
  intros Hb Hr. destruct (in_scaleExtent_finite_nonzero base Hb) as [Hf Hz].
  apply (clamp_within 0.5632 8); [reflexivity|].
  apply mul_comm_not_nan; assumption.
Qed.

(** *** The invariants hold at mount and after every event *)

Lemma mount_inv : zoom_inv mount = true /\ pan_inv mount = true.
Proof. split; reflexivity. Qed.

Lemma zoom_inv_intro (c : Component) :
  in_scaleExtent (k (zoomRef c)) = true ->
  in_scaleExtent (k (svg_zoom c)) = true ->
  (forall h, hammer c = Some h -> in_scaleExtent (initialScale h) = true) ->
  zoom_inv c = true.
Proof.
  intros H1 H2 H3. unfold zoom_inv. rewrite H1, H2. simpl.
  destruct (hammer c) as [h|]; auto.
Qed.

Lemma zoom_inv_elim (c : Component) :
  zoom_inv c = true ->
  in_scaleExtent (k (zoomRef c)) = true
  /\ in_scaleExtent (k (svg_zoom c)) = true
  /\ (forall h, hammer c = Some h -> in_scaleExtent (initialScale h) = true).
Proof.
  unfold zoom_inv. rewrite !andb_true_iff. intros [[H1 H2] H3].
  repeat split; auto. intros h E. now rewrite E in H3.
Qed.

Lemma pan_inv_intro (c : Component) :
  within (-90) 90 (pitch c) = true -> roll c = 0 ->
  (forall h, hammer c = Some h -> is_finite (lastDeltaY h) = true) ->
  pan_inv c = true.
Proof.
  intros H1 H2 H3. unfold pan_inv. rewrite H1, H2. simpl.
  destruct (hammer c) as [h|]; auto.
Qed.

Lemma pan_inv_elim (c : Component) :
  pan_inv c = true ->
  within (-90) 90 (pitch c) = true /\ roll c = 0
  /\ (forall h, hammer c = Some h -> is_finite (lastDeltaY h) = true).
Proof.
  unfold pan_inv. rewrite !andb_true_iff. intros [[H1 H2] H3].
  apply Leibniz.eqb_spec in H2.
  assert (H4 : forall h, hammer c = Some h -> is_finite (lastDeltaY h) = true).
  { intros h E. now rewrite E in H3. }
  auto.
Qed.

(** The clamped pitch of a pan tick lies in [-90, 90] whenever the zoom
    scale lies in the extent and the pitch and the pixel offsets are
    finite. *)
Lemma pan_pitch_within (y zk dy last : float) :
  in_scaleExtent zk = true -> is_finite y = true ->
  is_finite dy = true -> is_finite last = true ->
  within (-90) 90 (Math_max (-90) (Math_min 90 (y - (dy - last) * pan_k zk))) = true.
Proof.
  intros Hk Hy Hdy Hlast.
  destruct (pan_k_finite zk Hk) as [Hf Hz].
  apply clamp_within; [reflexivity|].
  apply sub_not_nan; [assumption|].
  apply mul_not_nan; try assumption.
  apply sub_not_nan; [assumption|]. now apply finite_not_nan.
Qed.

Lemma panmove_spec (dx dy : float) (h : Gesture) (c : Component) :
  exists h' c',
    panmove dx dy h c = Ok (h', c')
    /\ yaw c' = yaw c + (dx - lastDeltaX h) * pan_k (k (zoomRef c))
    /\ pitch c' = Math_max (-90) (Math_min 90
                    (pitch c - (dy - lastDeltaY h) * pan_k (k (zoomRef c))))
    /\ roll c' = 0
    /\ coordinates c' = (yaw c', pitch c')
    /\ zoomRef c' = zoomRef c /\ svg_zoom c' = svg_zoom c
    /\ hammer c' = hammer c /\ console c' = console c
    /\ lastDeltaX h' = dx /\ lastDeltaY h' = dy
    /\ initialScale h' = initialScale h.
Proof.
  unfold panmove, yaw, pitch, roll.
  destruct (rotationRef c) as [[x0 y0] z0]. cbn [fst snd].
  eexists _, _. split; [reflexivity|]. repeat split.
Qed.

Lemma handle_zoom_inv (ev : Event) (c : Component) :
  zoom_number ev = true -> zoom_inv c = true ->
  exists c', handle ev c = Ok c' /\ zoom_inv c' = true.
Proof.
  intros Hev Hc. destruct (zoom_inv_elim c Hc) as (Hz & Hs & Hh).
  destruct ev as [|r| |dx dy| |ratio|factor tx ty]; cbn [handle].
  - eexists. split; [reflexivity|exact Hc].
  - destruct (settled c); eexists; (split; [reflexivity|]); [exact Hc|].
    destruct (settle_frame r (with_settled true c)) as (_ & Ez & Es & _).
    apply zoom_inv_intro; rewrite ?Ez, ?Es; try assumption.
    intros h Eh. destruct (settle_hammer r (with_settled true c)) as [E|E];
      rewrite E in Eh; [now apply Hh | now inversion Eh].
  - destruct (hammer c) as [h|] eqn:Eh; eexists; (split; [reflexivity|]);
      [|exact Hc].
    apply zoom_inv_intro; try assumption.
    intros h' E. inversion E. exact (Hh h eq_refl).
  - destruct (hammer c) as [h|] eqn:Eh; [|eexists; split; [reflexivity|exact Hc]].
    destruct (panmove_spec dx dy h c)
      as (h' & c' & E & _ & _ & _ & _ & Ez & Es & _ & _ & _ & _ & Ei).
    rewrite E. cbn [bind fst snd]. eexists. split; [reflexivity|].
    apply zoom_inv_intro; cbn [zoomRef svg_zoom hammer with_hammer];
      rewrite ?Ez, ?Es; try assumption.
    intros h0 E0. inversion E0. subst h0. rewrite Ei. exact (Hh h eq_refl).
  - destruct (hammer c) as [h|] eqn:Eh; eexists; (split; [reflexivity|]);
      [|exact Hc].
    apply zoom_inv_intro; try assumption.
    intros h' E. inversion E. exact Hz.
  - destruct (hammer c) as [h|] eqn:Eh; [|eexists; split; [reflexivity|exact Hc]].
    eexists. split; [reflexivity|]. unfold pinch.
    apply negb_true_iff in Hev.
    pose proof (pinch_scale_in_extent _ ratio (Hh h eq_refl) Hev) as Hp.
    destruct (zoom_scaleTo_frame
                (Math_max 0.5632 (Math_min 8 (initialScale h * ratio))) c)
      as (_ & Ez & Es & _ & Eh' & _).
    apply zoom_inv_intro; rewrite ?Ez, ?Es, ?Eh'.
    + rewrite zoom_clamp_id; assumption.
    + rewrite zoom_clamp_id; assumption.
    + intros h' E. rewrite Eh in E. inversion E. subst h'. exact (Hh h eq_refl).
  - eexists. split; [reflexivity|]. unfold wheeled.
    destruct (k (svg_zoom c) =? _) eqn:Eq; [exact Hc|].
    apply negb_true_iff in Hev.
    destruct (in_scaleExtent_finite_nonzero _ Hs) as [Hf Hnz].
    assert (Hk : in_scaleExtent (zoom_clamp (k (svg_zoom c) * factor)) = true).
    { apply zoom_clamp_in_extent. apply mul_comm_not_nan; assumption. }
    apply zoom_inv_intro; try exact Hk. exact Hh.
Qed.

Lemma handle_pan_inv (ev : Event) (c : Component) :
  event_number ev = true -> zoom_inv c = true -> pan_inv c = true ->
  exists c', handle ev c = Ok c' /\ pan_inv c' = true.
Proof.
  intros Hev Hz Hc. destruct (pan_inv_elim c Hc) as (Hp & Hr & Hh).
  destruct (zoom_inv_elim c Hz) as (Hk & _ & _).
  destruct ev as [|r| |dx dy| |ratio|factor tx ty]; cbn [handle].
  - eexists. split; [reflexivity|exact Hc].
  - destruct (settled c); eexists; (split; [reflexivity|]); [exact Hc|].
    destruct (settle_frame r (with_settled true c)) as (Er & _).
    apply pan_inv_intro; unfold pitch, roll; rewrite ?Er; try assumption.
    intros h Eh. destruct (settle_hammer r (with_settled true c)) as [E|E];
      rewrite E in Eh; [now apply Hh | inversion Eh; reflexivity].
  - destruct (hammer c) as [h|] eqn:Eh; eexists; (split; [reflexivity|]);
      [|exact Hc].
    apply pan_inv_intro; try assumption.
    intros h' E. inversion E. reflexivity.
  - destruct (hammer c) as [h|] eqn:Eh; [|eexists; split; [reflexivity|exact Hc]].
    destruct (panmove_spec dx dy h c)
      as (h' & c' & E & _ & Ep & Erl & _ & _ & _ & _ & _ & Ex & Ey & _).
    rewrite E. cbn [bind fst snd]. eexists. split; [reflexivity|].
    cbn [event_number] in Hev.
    pose proof (Hh h eq_refl) as Hly.
    apply pan_inv_intro.
    + change (pitch (with_hammer (Some h') c')) with (pitch c'). rewrite Ep.
      apply pan_pitch_within; try assumption.
      apply (within_finite (-90) 90); [reflexivity|reflexivity|assumption].
    + exact Erl.
    + intros h0 E0. cbn [hammer with_hammer] in E0. inversion E0. subst h0.
      rewrite Ey. exact Hev.
  - destruct (hammer c) as [h|] eqn:Eh; eexists; (split; [reflexivity|]);
      [|exact Hc].
    apply pan_inv_intro; try assumption.
    intros h' E. inversion E. exact (Hh h eq_refl).
  - destruct (hammer c) as [h|] eqn:Eh; [|eexists; split; [reflexivity|exact Hc]].
    eexists. split; [reflexivity|]. unfold pinch.
    destruct (zoom_scaleTo_frame
                (Math_max 0.5632 (Math_min 8 (initialScale h * ratio))) c)
      as (Er & _ & _ & _ & Eh' & _).
    apply pan_inv_intro; unfold pitch, roll; rewrite ?Er, ?Eh'; try assumption.
    rewrite Eh. intros h' E. inversion E. subst h'. exact (Hh h eq_refl).
  - eexists. split; [reflexivity|].
    destruct (wheeled_frame factor tx ty c) as (Er & _ & Eh' & _).
    apply pan_inv_intro; unfold pitch, roll; rewrite ?Er, ?Eh'; assumption.
Qed.

Lemma event_number_zoom (ev : Event) : event_number ev = true -> zoom_number ev = true.
Proof. destruct ev; auto. Qed.

(** Handling events never throws, and keeps the scale invariant. *)
Lemma run_zoom_inv (evs : list Event) (c : Component) :
  forallb zoom_number evs = true -> zoom_inv c = true ->
  exists c', run evs c = Ok c' /\ zoom_inv c' = true.
Proof.
  revert c. induction evs as [|ev evs IH]; intros c Hevs Hc; cbn [run].
  - eauto.
  - cbn [forallb] in Hevs. apply andb_prop in Hevs. destruct Hevs as [Hev Hevs].
    destruct (handle_zoom_inv ev c Hev Hc) as (c1 & E1 & H1).
    rewrite E1. cbn [bind]. auto.
Qed.

Lemma run_inv (evs : list Event) (c : Component) :
  forallb event_number evs = true -> zoom_inv c = true -> pan_inv c = true ->
  exists c', run evs c = Ok c' /\ zoom_inv c' = true /\ pan_inv c' = true.
Proof.
  revert c. induction evs as [|ev evs IH]; intros c Hevs Hz Hp; cbn [run].
  - eauto.
  - cbn [forallb] in Hevs. apply andb_prop in Hevs. destruct Hevs as [Hev Hevs].
    destruct (handle_zoom_inv ev c (event_number_zoom ev Hev) Hz) as (c1 & E1 & H1).
    destruct (handle_pan_inv ev c Hev Hz Hp) as (c2 & E2 & H2).
    rewrite E1 in E2. inversion E2. subst c2.
    rewrite E1. cbn [bind]. auto.
Qed.

(** ** Rotation and zoom *)

Lemma forallb_snoc {A : Type} (f : A -> bool) (l : list A) (a : A) :
  forallb f l = true -> f a = true -> forallb f (l ++ [a]) = true.
Proof.
  intros Hl Ha. rewrite forallb_app, Hl. cbn [forallb]. rewrite Ha. reflexivity.
Qed.

(** C1.  For every pan-move event, in whatever history of events it comes,
    handling it raises no exception and leaves the rotation with its pitch
    within [-90, 90] and its roll equal to 0.  This holds however large
    the yaw has grown: the invariants of the starting state do not
    constrain it, and the horizontal offsets of the pan events are
    arbitrary.  The other numbers of the events are as the gesture
    libraries report them: finite vertical offsets, and pinch ratios and
    wheel factors that are not NaN. *)
Theorem pan_move_keeps_rotation_valid
    (c : Component) (evs : list Event) (deltaX deltaY : float) :
  zoom_inv c = true -> pan_inv c = true ->
  forallb event_number evs = true -> is_finite deltaY = true ->
  exists c',
    run (evs ++ [PanMove deltaX deltaY]) c = Ok c'
    /\ within (-90) 90 (pitch c') = true
    /\ roll c' = 0.
Proof.
  intros Hz Hp Hevs Hy.
  destruct (run_inv (evs ++ [PanMove deltaX deltaY]) c) as (c' & E & _ & Hp');
    try assumption.
  { apply forallb_snoc; assumption. }
  exists c'. split; [exact E|].
  destruct (pan_inv_elim c' Hp') as (H1 & H2 & _). auto.
Qed.

(** C2.  After every sequence of events whose wheel and pinch gestures
    report any magnitude at all (zero, negative and infinite ones
    included), the scale factor of the zoom state lies within
    [0.5632, 8]. *)
Theorem zoom_scale_within_extent (c : Component) (evs : list Event) :
  zoom_inv c = true -> forallb zoom_number evs = true ->
  exists c', run evs c = Ok c' /\ within 0.5632 8 (k (zoomRef c')) = true.
Proof.
  intros Hz Hevs.
  destruct (run_zoom_inv evs c Hevs Hz) as (c' & E & Hz').
  exists c'. split; [exact E|].
  destruct (zoom_inv_elim c' Hz') as (H & _). exact H.
Qed.

(** C10.  The two gesture handlers are frame-disjoint: a pan-move leaves
    the zoom state (the zoom ref and the transform d3-zoom keeps on the
    node) as it was, and the zoom listener, a pinch tick and a wheel tick
    leave the rotation state as it was. *)
Theorem pan_and_zoom_are_frame_disjoint :
  (forall (deltaX deltaY : float) (c : Component),
      exists c', handle (PanMove deltaX deltaY) c = Ok c'
                 /\ zoomRef c' = zoomRef c /\ svg_zoom c' = svg_zoom c)
  /\ (forall (transform : ZoomTransform) (c : Component),
         rotationRef (zoomed transform c) = rotationRef c)
  /\ (forall (ratio : float) (c : Component),
         exists c', handle (Pinch ratio) c = Ok c'
                    /\ rotationRef c' = rotationRef c)
  /\ (forall (factor tx ty : float) (c : Component),
         exists c', handle (Wheel factor tx ty) c = Ok c'
                    /\ rotationRef c' = rotationRef c).
Proof.
  repeat split.
  - intros deltaX deltaY c. cbn [handle].
    destruct (hammer c) as [h|]; [|eauto].
    destruct (panmove_spec deltaX deltaY h c)
      as (h' & c' & E & _ & _ & _ & _ & Ez & Es & _).
    rewrite E. cbn [bind fst snd]. eexists. split; [reflexivity|].
    split; assumption.
  - intros ratio c. cbn [handle].
    destruct (hammer c) as [h|]; eexists; split; reflexivity.
  - intros factor tx ty c. cbn [handle]. eexists. split; [reflexivity|].
    apply wheeled_frame.
Qed.

(** A pinch tick of ratio one moves the scale to the captured baseline. *)
Lemma pinch_one (h : Gesture) (c : Component) :
  in_scaleExtent (initialScale h) = true ->
  k (zoomRef (pinch 1 h c)) = initialScale h
  /\ k (svg_zoom (pinch 1 h c)) = initialScale h.
Proof.
  intros H. unfold pinch. rewrite mul_one.
  assert (E : Math_max 0.5632 (Math_min 8 (initialScale h)) = initialScale h)
    by (apply (clamp_id 0.5632 8); [reflexivity|reflexivity|exact H]).
  rewrite E.
  destruct (zoom_scaleTo_frame (initialScale h) c) as (_ & Ez & Es & _).
  rewrite Ez, Es, (zoom_clamp_id _ H). split; reflexivity.
Qed.

(** C7.  A pinch gesture whose ratio is exactly 1.0 leaves the scale
    factor at the baseline captured at pinch start, for every baseline
    within [0.5632, 8]. *)
Theorem pinch_ratio_one_keeps_scale (c : Component) :
  within 0.5632 8 (k (zoomRef c)) = true ->
  exists c' c'',
    handle PinchStart c = Ok c'
    /\ (forall h, hammer c = Some h ->
                  exists h', hammer c' = Some h'
                             /\ initialScale h' = k (zoomRef c))
    /\ handle (Pinch 1) c' = Ok c''
    /\ k (zoomRef c'') = k (zoomRef c).
Proof.
  intros Hk. cbn [handle].
  destruct (hammer c) as [h|] eqn:Eh.
  - eexists _, _. split; [reflexivity|]. split.
    { intros h0 E0. eexists. split; reflexivity. }
    cbn [hammer with_hammer]. split; [reflexivity|].
    apply (pinch_one (pinchstart h c)). exact Hk.
  - exists c, c. rewrite Eh. repeat split. discriminate.
Qed.

Lemma rotation_eta (c : Component) : rotationRef c = (yaw c, pitch c, roll c).
Proof. unfold yaw, pitch, roll. now destruct (rotationRef c) as [[a b] r]. Qed.

(** A pan tick whose incremental offset is zero computes the same yaw and
    the same pitch, up to the sign of a zero. *)
Lemma pan_zero_delta (v d kk : float) :
  is_zero d = true -> is_finite kk = true ->
  SameValueZero (v + d * kk) v = true /\ SameValueZero (v - d * kk) v = true
  /\ (is_zero v = false -> v + d * kk = v /\ v - d * kk = v)
  /\ (is_zero v = true -> is_zero (v - d * kk) = true).
Proof.
  intros Hd Hk. pose proof (mul_zero_finite d kk Hd Hk) as Hz.
  destruct (add_zero v (d * kk) Hz) as [A1 A2].
  destruct (sub_zero v (d * kk) Hz) as [S1 S2].
  destruct (is_zero v) eqn:Ev.
  - repeat split; try discriminate; auto using SameValueZero_zeros.
  - rewrite (A1 eq_refl), (S1 eq_refl).
    repeat split; try discriminate; auto using SameValueZero_refl.
Qed.

(** C6.  A pan-move tick whose incremental pixel offset is (0, 0) leaves
    the rotation state unchanged, for every starting rotation whose pitch
    is within [-90, 90] and whose roll is 0: the yaw and the pitch are the
    same values (SameValueZero: a zero may come back as the other zero),
    and the triple is the very same one when neither of them is a zero. *)
Theorem pan_by_zero_keeps_rotation
    (c : Component) (h : Gesture) (deltaX deltaY : float) :
  within 0.5632 8 (k (zoomRef c)) = true -> hammer c = Some h ->
  within (-90) 90 (pitch c) = true -> roll c = 0 ->
  is_zero (deltaX - lastDeltaX h) = true ->
  is_zero (deltaY - lastDeltaY h) = true ->
  exists c',
    handle (PanMove deltaX deltaY) c = Ok c'
    /\ SameValueZero (yaw c') (yaw c) = true
    /\ SameValueZero (pitch c') (pitch c) = true
    /\ roll c' = roll c
    /\ (is_zero (yaw c) = false -> is_zero (pitch c) = false ->
        rotationRef c' = rotationRef c).
Proof.
  intros Hk Eh Hp Hr Hdx Hdy.
  destruct (pan_k_finite _ Hk) as [Hf _].
  cbn [handle]. rewrite Eh.
  destruct (panmove_spec deltaX deltaY h c)
    as (h' & c' & E & Ey & Ep & Erl & _).
  rewrite E. cbn [bind fst snd]. eexists. split; [reflexivity|].
  change (yaw (with_hammer (Some h') c')) with (yaw c').
  change (pitch (with_hammer (Some h') c')) with (pitch c').
  change (roll (with_hammer (Some h') c')) with (roll c').
  change (rotationRef (with_hammer (Some h') c')) with (rotationRef c').
  destruct (pan_zero_delta (yaw c) _ _ Hdx Hf) as (Y1 & _ & Y2 & _).
  destruct (pan_zero_delta (pitch c) _ _ Hdy Hf) as (_ & P1 & P2 & P3).
  assert (Hclamp : pitch c' = pitch c - (deltaY - lastDeltaY h) * pan_k (k (zoomRef c))).
  { rewrite Ep. apply clamp_id; try reflexivity.
    destruct (is_zero (pitch c)) eqn:Ez.
    - apply (within_zero (-90) 90 (pitch c)); auto.
    - destruct (P2 eq_refl) as [_ ->]. exact Hp. }
  repeat split.
  - rewrite Ey. exact Y1.
  - rewrite Hclamp. exact P1.
  - congruence.
  - intros Zy Zp. rewrite (rotation_eta c'), (rotation_eta c).
    rewrite Ey, Hclamp, Erl, Hr.
    destruct (Y2 Zy) as [-> _]. destruct (P2 Zp) as [_ ->]. reflexivity.
Qed.

(** ** Rendering *)

Lemma get_set_attr (name : string) (v : Value) (a : Attrs) :
  get_attr name (set_attr name v a) = Some v.
Proof.
  induction a as [|[n w] a IH]; cbn [set_attr get_attr].
  - now rewrite String.eqb_refl.
  - destruct (String.eqb n name) eqn:E; cbn [get_attr]; rewrite E; auto.
Qed.

(** After [updateMap] the projection is rotated to the rotation state, every
    path carries the path string of its feature under that projection and
    every label sits at its centroid; the bound data are as before. *)
Lemma updateMap_renders (c : Component) :
  rotate (projection (updateMap c)) = rotationRef (updateMap c)
  /\ scale (projection (updateMap c)) = scale (projection c)
  /\ map datum (g (scene (updateMap c))) = map datum (g (scene c))
  /\ forall b, In b (g (scene (updateMap c))) ->
       (tag (node b) = "path" ->
        rendered_d b = Some (path_d (projection (updateMap c)) (datum b)))
       /\ (tag (node b) = "text" ->
           get_attr "transform" (attrs (node b))
           = Some (label_transform (projection (updateMap c)) (datum b))).
Proof.
  split; [reflexivity|]. split; [reflexivity|].
  cbn [updateMap scene with_scene with_projection with_g g projection].
  set (p := {| scale := scale (projection c);
               translate := translate (projection c);
               rotate := rotationRef c |}).
  unfold selectAll_attr. split.
  - rewrite !map_map. apply map_ext. intros b.
    destruct (String.eqb (tag (node b)) "path") eqn:E1; cbn [node datum attr tag];
      destruct (String.eqb _ "text"); reflexivity.
  - intros b Hb. rewrite map_map in Hb. apply in_map_iff in Hb.
    destruct Hb as (b0 & <- & _). unfold rendered_d.
    destruct (String.eqb (tag (node b0)) "path") eqn:E1.
    + assert (E3 : String.eqb (tag (node {| datum := datum b0;
                     node := attr "d" (path_d p (datum b0)) (node b0) |})) "text"
                   = false).
      { cbn [node attr tag]. apply String.eqb_eq in E1. now rewrite E1. }
      rewrite E3. cbn [node datum attr tag attrs]. split.
      * intros _. apply get_set_attr.
      * intros E. apply String.eqb_eq in E1. rewrite E1 in E. discriminate E.
    + destruct (String.eqb (tag (node b0)) "text") eqn:E2;
        cbn [node datum attr tag attrs]; split; intros E.
      * rewrite E in E1. discriminate E1.
      * apply get_set_attr.
      * rewrite E in E1. discriminate E1.
      * rewrite E in E2. discriminate E2.
Qed.

(** C4.  On every pan-move tick the incremental pixel offset since the
    previous tick is scaled by [0.3 / sqrt(k)] for the current zoom scale
    [k]; the scaled horizontal offset is added to the yaw, the scaled
    vertical offset is subtracted from the pitch (which is then clamped to
    [-90, 90], and is the plain difference whenever that lies in the
    interval); the map is re-rendered before the handler returns, and the
    offsets of the tick become the baseline of the next one.  A pan start
    resets the baseline to zero. *)
Theorem pan_tick_rotates_by_scaled_delta
    (c : Component) (h : Gesture) (deltaX deltaY : float) :
  hammer c = Some h ->
  let kk := 0.3 / Math_sqrt (k (zoomRef c)) in
  let dX := deltaX - lastDeltaX h in
  let dY := deltaY - lastDeltaY h in
  (exists c' h',
      handle (PanMove deltaX deltaY) c = Ok c'
      /\ hammer c' = Some h'
      /\ yaw c' = yaw c + dX * kk
      /\ pitch c' = Math_max (-90) (Math_min 90 (pitch c - dY * kk))
      /\ (within (-90) 90 (pitch c - dY * kk) = true ->
          pitch c' = pitch c - dY * kk)
      /\ lastDeltaX h' = deltaX /\ lastDeltaY h' = deltaY
      /\ rotate (projection c') = rotationRef c'
      /\ (forall b, In b (g (scene c')) -> tag (node b) = "path" ->
                    rendered_d b = Some (path_d (projection c') (datum b))))
  /\ (exists c0 h0,
         handle PanStart c = Ok c0 /\ hammer c0 = Some h0
         /\ lastDeltaX h0 = 0 /\ lastDeltaY h0 = 0
         /\ rotationRef c0 = rotationRef c).
Proof.
  intros Eh kk dX dY. split.
  - cbn [handle]. rewrite Eh. unfold panmove.
    pose proof (rotation_eta c) as Er. unfold yaw, pitch in *.
    destruct (rotationRef c) as [[x0 y0] z0] eqn:Erot. cbn [fst snd] in *.
    cbn [bind fst snd]. eexists _, _. split; [reflexivity|].
    split; [reflexivity|].
    split; [reflexivity|]. split; [reflexivity|].
    split.
    { intros Hw. cbn [rotationRef with_hammer updateMap with_scene with_projection
                        setCoordinates with_rotationRef fst snd].
      apply clamp_id; try reflexivity. exact Hw. }
    split; [reflexivity|]. split; [reflexivity|].
    split; [reflexivity|].
    intros b Hb Ht.
    match type of Hb with
    | In b (g (scene (with_hammer _ (updateMap ?c1)))) =>
        destruct (updateMap_renders c1) as (_ & _ & _ & Hr);
        exact (proj1 (Hr b Hb) Ht)
    end.
  - cbn [handle]. rewrite Eh. eexists _, _. repeat split.
Qed.

(** Children of other tags are outside the data join. *)
Lemma data_join_other (t : string) (features : list Feature) (l : list Bound) :
  (forall b, In b l -> String.eqb (tag (node b)) t = false) ->
  data_join t features l = (l, features).
Proof.
  induction l as [|b l IH]; intros H; cbn [data_join]; [reflexivity|].
  rewrite (H b (or_introl eq_refl)), IH; [reflexivity|].
  intros b' Hb'. apply H. right. exact Hb'.
Qed.

(** What the [.then] callback draws into an empty group: one path per
    feature, then one label per feature. *)
Lemma loaded_draws (topology : Topology) (features : list Feature) (c : Component) :
  svgRef c = true -> g (scene c) = [] ->
  topojson_feature topology = Ok features ->
  exists c',
    loaded (Some topology) c = Ok c'
    /\ g (scene c')
       = map (fun d => {| datum := d;
                          node := country_path (projection c) d (element "path") |})
           features
         ++ map (fun d => {| datum := d;
                             node := country_label (projection c) d (element "text") |})
              features.
Proof.
  intros Hs Hg Hf. unfold loaded. rewrite Hs, Hf. cbn [negb bind].
  eexists. split; [reflexivity|].
  cbn [scene with_scene with_g g with_hammer with_mapGroup_circle
         with_degreesGroup].
  rewrite Hg. unfold enter_append at 2. cbn [data_join app].
  unfold enter_append. rewrite data_join_other; [reflexivity|].
  intros b Hb. apply in_map_iff in Hb. destruct Hb as (d & <- & _). reflexivity.
Qed.

(** C8.  Path generation surfaces no error: the ["d"] attribute of a path
    is a total function of the generator's output, and for every feature
    for which the generator produces nothing it is the empty string, both
    when [updateMap] redraws the paths and when the data join first draws
    them into the empty group. *)
Theorem path_attribute_is_empty_without_output :
  (forall (p : GeoProjection) (d : Feature),
      geoPath p d = None -> path_d p d = Str "")
  /\ (forall (c : Component) (b : Bound),
         In b (g (scene (updateMap c))) -> tag (node b) = "path" ->
         geoPath (projection (updateMap c)) (datum b) = None ->
         rendered_d b = Some (Str ""))
  /\ (forall (topology : Topology) (c c' : Component) (b : Bound),
         g (scene c) = [] -> loaded (Some topology) c = Ok c' ->
         In b (g (scene c')) -> tag (node b) = "path" ->
         geoPath (projection c) (datum b) = None ->
         rendered_d b = Some (Str "")).
Proof.
  assert (H0 : forall p d, geoPath p d = None -> path_d p d = Str "").
  { intros p d E. unfold path_d. rewrite E. reflexivity. }
  split; [exact H0|]. split.
  - intros c b Hb Ht Hn.
    destruct (updateMap_renders c) as (_ & _ & _ & Hr).
    rewrite (proj1 (Hr b Hb) Ht). f_equal. apply H0. exact Hn.
  - intros topology c c' b Hg E Hb Ht Hn.
    destruct (svgRef c) eqn:Hs.
    + destruct (topojson_feature topology) as [features|e] eqn:Hf.
      * destruct (loaded_draws topology features c Hs Hg Hf) as (c1 & E1 & G1).
        rewrite E1 in E. inversion E. subst c1. rewrite G1 in Hb.
        apply in_app_or in Hb. destruct Hb as [Hb|Hb];
          apply in_map_iff in Hb; destruct Hb as (d & <- & _).
        -- cbn [datum] in Hn. unfold rendered_d, country_path.
           cbn [node attrs attr element set_attr String.eqb Ascii.eqb Bool.eqb
                  get_attr].
           f_equal. apply H0. exact Hn.
        -- discriminate Ht.
      * unfold loaded in E. rewrite Hs, Hf in E. discriminate E.
    + unfold loaded in E. rewrite Hs in E. inversion E. subst c'.
      rewrite Hg in Hb. destruct Hb.
Qed.

(** ** The tick ring *)







(** ** Loading *)

Lemma settle_settled (r : Settlement) (c : Component) :
  settled (settle r c) = settled c.
Proof.
  unfold settle, loaded.
  destruct r as [error|[topology|]]; [reflexivity| |];
    destruct (negb (svgRef c)); try reflexivity.
  destruct (topojson_feature topology); reflexivity.
Qed.

(** A failed load logs the caught error, once, and draws nothing. *)
Lemma settle_failure (r : Settlement) (e : Exn) (c : Component) :
  load_error c r = Some e ->
  settle r c = failed e c.
Proof.
  unfold load_error, settle, loaded.
  destruct r as [error|[topology|]].
  - intros E. now inversion E.
  - destruct (negb (svgRef c)); [discriminate|].
    destruct (topojson_feature topology); [discriminate|].
    intros E. now inversion E.
  - destruct (negb (svgRef c)); [discriminate|].
    intros E. now inversion E.
Qed.

(** Until the request settles the drawing is bare and nothing is logged. *)
Lemma handle_unsettled (ev : Event) (c c' : Component) :
  handle ev c = Ok c' ->
  (settled c = false -> bare c /\ console c = []) ->
  (settled c' = false -> bare c' /\ console c' = []).
Proof.
  intros E H S'.
  destruct ev as [|r| |dx dy| |ratio|factor tx ty]; cbn [handle] in E.
  - inversion E. subst c'. exact (H S').
  - destruct (settled c) eqn:S; inversion E; subst c'.
    + rewrite S in S'. discriminate.
    + rewrite settle_settled in S'. discriminate.
  - assert (S : settled c = false)
      by (destruct (hammer c); inversion E; subst c'; exact S').
    destruct (H S) as [B L]. destruct B as (Bh & B).
    rewrite Bh in E. inversion E. subst c'. repeat split; tauto.
  - assert (S : settled c = false).
    { destruct (hammer c) as [h|]; [|inversion E; subst c'; exact S'].
      destruct (panmove_spec dx dy h c) as (h' & c1 & E1 & _).
      unfold panmove in *. destruct (rotationRef c) as [[x0 y0] z0].
      cbn [bind fst snd] in E. inversion E. subst c'. exact S'. }
    destruct (H S) as [B L]. destruct B as (Bh & B).
    rewrite Bh in E. inversion E. subst c'. repeat split; tauto.
  - assert (S : settled c = false)
      by (destruct (hammer c); inversion E; subst c'; exact S').
    destruct (H S) as [B L]. destruct B as (Bh & B).
    rewrite Bh in E. inversion E. subst c'. repeat split; tauto.
  - assert (S : settled c = false)
      by (destruct (hammer c); inversion E; subst c'; exact S').
    destruct (H S) as [B L]. destruct B as (Bh & B).
    rewrite Bh in E. inversion E. subst c'. repeat split; tauto.
  - inversion E. subst c'. clear E. unfold wheeled in *.
    destruct (k (svg_zoom c) =? _); [exact (H S')|].
    destruct (H S') as [(Bh & Bg & Bc & Bd & Bb & Bp) L].
    unfold bare.
    cbn [zoomed updateMap scene with_scene with_projection with_g with_g_attrs
           with_zoomRef with_svg_zoom hammer console g mapGroup_circle
           degreesGroup clippedGroup clipPath].
    rewrite Bg. cbn [selectAll_attr map]. repeat split; assumption.
Qed.

Lemma run_unsettled (evs : list Event) (c c' : Component) :
  run evs c = Ok c' ->
  (settled c = false -> bare c /\ console c = []) ->
  (settled c' = false -> bare c' /\ console c' = []).
Proof.
  revert c. induction evs as [|ev evs IH]; intros c E H; cbn [run] in E.
  - inversion E. subst c'. exact H.
  - destruct (handle ev c) as [c1|e] eqn:E1; cbn [bind] in E; [|discriminate].
    apply (IH c1 E). exact (handle_unsettled ev c c1 E1 H).
Qed.

Lemma mount_bare : bare mount /\ console mount = [].
Proof. repeat split. Qed.

(** C3, as the code has it.  When the load fails (the request is rejected,
    or the response is empty or cannot be decoded), at whatever moment
    after mounting, the promise chain does not throw and logs exactly one
    error; the drawing stays as it was: the clipped background alone,
    with no country shapes, no edge circle and no tick marks, which the
    component draws only after a successful load. *)
Theorem load_failure_logs_once_and_draws_nothing
    (evs : list Event) (c : Component) (r : Settlement) (e : Exn) :
  run evs mount = Ok c -> settled c = false -> load_error c r = Some e ->
  exists c',
    handle (Settle r) c = Ok c'
    /\ console c' = [("Error loading or processing world map data:", e)]
    /\ scene c' = scene c
    /\ bare c'
    /\ shows_tick_marks c' = false.
Proof.
  intros E S L.
  destruct (run_unsettled evs mount c E (fun _ => mount_bare) S) as [B C].
  cbn [handle]. rewrite S. eexists. split; [reflexivity|].
  rewrite (settle_failure r e); [|exact L].
  unfold failed, console_error, shows_tick_marks. cbn [console scene with_settled].
  destruct B as (Bh & Bg & Bc & Bd & Bb & Bp). rewrite C, Bd.
  repeat split; assumption.
Qed.

(** ** The coordinate readout *)

Lemma length_append (s1 s2 : string) :
  String.length (s1 ++ s2) = (String.length s1 + String.length s2)%nat.
Proof.
  induction s1 as [|a s1 IH]; cbn [append String.length Nat.add];
    [reflexivity | f_equal; exact IH].
Qed.

Lemma length_zeros (n : nat) : String.length (zeros n) = n.
Proof.
  induction n as [|n IH]; cbn [zeros String.length];
    [reflexivity | f_equal; exact IH].
Qed.

Lemma length_substring (s : string) (n m : nat) :
  (n + m <= String.length s)%nat -> String.length (substring n m s) = m.
Proof.
  revert n m. induction s as [|a s IH]; intros n m H; cbn [String.length] in H.
  - assert (n = 0 /\ m = 0)%nat as [-> ->] by lia. reflexivity.
  - destruct n as [|n]; cbn [substring].
    + destruct m as [|m]; cbn [String.length]; [reflexivity|].
      f_equal. apply IH. lia.
    + apply IH. lia.
Qed.

Lemma append_assoc (s1 s2 s3 : string) :
  ((s1 ++ s2) ++ s3 = s1 ++ (s2 ++ s3))%string.
Proof. induction s1 as [|a s1 IH]; cbn [append]; congruence. Qed.

(** The digits come with exactly two of them after the decimal point. *)
Lemma fixed_digits_two (n : Z) :
  exists a b, fixed_digits 2 n = (a ++ "." ++ b)%string /\ String.length b = 2%nat.
Proof.
  unfold fixed_digits.
  set (m := NilZero.string_of_uint (N.to_uint (Z.to_N n))).
  set (m' := if (String.length m <=? 2)%nat
             then (zeros (2 + 1 - String.length m) ++ m)%string else m).
  assert (H : (3 <= String.length m')%nat).
  { unfold m'. destruct (Nat.leb_spec (String.length m) 2).
    - rewrite length_append, length_zeros. lia.
    - lia. }
  eexists _, _. split; [reflexivity|].
  apply length_substring. lia.
Qed.

Lemma toFixed_two_places (v : float) :
  fixed_range v = true ->
  exists a b, toFixed 2 v = (a ++ "." ++ b)%string /\ String.length b = 2%nat.
Proof.
  unfold fixed_range, toFixed.
  destruct (Prim2SF v) as [s|s| |s m e]; try discriminate; intros H.
  - apply fixed_digits_two.
  - apply negb_true_iff in H. rewrite H.
    destruct (fixed_digits_two (nearest_scaled 2 m e)) as (a & b & -> & Hb).
    exists ((if s then "-" else "") ++ a)%string, b.
    split; [|exact Hb]. now rewrite append_assoc.
Qed.

Lemma handle_coordinates (ev : Event) (c : Component) :
  coordinates c = (yaw c, pitch c) ->
  exists c', handle ev c = Ok c' /\ coordinates c' = (yaw c', pitch c').
Proof.
  intros H. unfold yaw, pitch in *.
  destruct ev as [|r| |dx dy| |ratio|factor tx ty]; cbn [handle].
  - eauto.
  - destruct (settled c); eexists; (split; [reflexivity|]); [exact H|].
    destruct (settle_frame r (with_settled true c)) as (Er & _ & _ & Ec).
    rewrite Er, Ec. exact H.
  - destruct (hammer c); eauto.
  - destruct (hammer c) as [h|]; [|eauto].
    destruct (panmove_spec dx dy h c) as (h' & c' & E & _ & _ & _ & Ec & _).
    rewrite E. cbn [bind fst snd]. eexists. split; [reflexivity|]. exact Ec.
  - destruct (hammer c); eauto.
  - destruct (hammer c); eauto.
  - eexists. split; [reflexivity|].
    destruct (wheeled_frame factor tx ty c) as (Er & Ec & _).
    rewrite Er, Ec. exact H.
Qed.

Lemma run_coordinates (evs : list Event) (c : Component) :
  coordinates c = (yaw c, pitch c) ->
  exists c', run evs c = Ok c' /\ coordinates c' = (yaw c', pitch c').
Proof.
  revert c. induction evs as [|ev evs IH]; intros c H; cbn [run].
  - eauto.
  - destruct (handle_coordinates ev c H) as (c1 & E1 & H1).
    rewrite E1. cbn [bind]. auto.
Qed.

(** C9.  The coordinate readout is pure formatting and has no state of its
    own: after every sequence of events its text is the yaw and the pitch
    of the current rotation, each formatted by [toFixed(2)], which writes
    exactly two digits after the decimal point for every finite number
    below [10^21] in magnitude. *)
Theorem readout_formats_current_rotation :
  (forall evs : list Event,
      exists c,
        run evs mount = Ok c
        /\ coordinates c = (yaw c, pitch c)
        /\ readout c
           = (toFixed 2 (yaw c) ++ "°, " ++ toFixed 2 (pitch c) ++ "°")%string)
  /\ (forall v : float,
         fixed_range v = true ->
         exists a b, toFixed 2 v = (a ++ "." ++ b)%string
                     /\ String.length b = 2%nat).
Proof.
  split; [|exact toFixed_two_places].
  intros evs. destruct (run_coordinates evs mount eq_refl) as (c & E & H).
  exists c. split; [exact E|]. split; [exact H|].
  unfold readout. rewrite H. reflexivity.
Qed.

(** * Further properties of the component *)

(** ** The projection follows the state *)

Lemma settle_projection (r : Settlement) (c : Component) :
  projection (settle r c) = projection c.
Proof.
  unfold settle, loaded.
  destruct r as [error|[topology|]]; [reflexivity| |];
    destruct (negb (svgRef c)); try reflexivity.
  destruct (topojson_feature topology); reflexivity.
Qed.

Lemma handle_projection (ev : Event) (c c' : Component) :
  handle ev c = Ok c' ->
  rotate (projection c) = rotationRef c
  /\ scale (projection c) = (height - 20) / 2 * k (zoomRef c) ->
  rotate (projection c') = rotationRef c'
  /\ scale (projection c') = (height - 20) / 2 * k (zoomRef c').
Proof.
  intros E [Hr Hs].
  destruct ev as [|r| |dx dy| |ratio|factor tx ty]; cbn [handle] in E.
  - inversion E. subst c'. auto.
  - destruct (settled c); inversion E; subst c'; [auto|].
    destruct (settle_frame r (with_settled true c)) as (Er & Ez & _).
    rewrite settle_projection, Er, Ez. auto.
  - destruct (hammer c); inversion E; subst c'; auto.
  - destruct (hammer c) as [h|]; [|inversion E; subst c'; auto].
    unfold panmove in E. destruct (rotationRef c) as [[x0 y0] z0].
    cbn [bind fst snd] in E. inversion E. subst c'. split; [reflexivity|].
    exact Hs.
  - destruct (hammer c); inversion E; subst c'; auto.
  - destruct (hammer c) as [h|]; inversion E; subst c'; [|auto].
    split; reflexivity.
  - inversion E. subst c'. unfold wheeled.
    destruct (k (svg_zoom c) =? _); [auto|]. split; reflexivity.
Qed.

Lemma handle_total (ev : Event) (c : Component) : exists c', handle ev c = Ok c'.
Proof.
  destruct ev as [|r| |dx dy| |ratio|factor tx ty]; cbn [handle]; eauto.
  - destruct (settled c); eauto.
  - destruct (hammer c); eauto.
  - destruct (hammer c) as [h|]; [|eauto].
    destruct (panmove_spec dx dy h c) as (h' & c' & E & _).
    rewrite E. cbn [bind]. eauto.
  - destruct (hammer c); eauto.
  - destruct (hammer c); eauto.
Qed.

(** An invariant of the handlers holds after every history of events,
    which never throws. *)
Lemma run_invariant (P : Component -> Prop) :
  (forall ev c c', handle ev c = Ok c' -> P c -> P c') ->
  forall evs c, P c -> exists c', run evs c = Ok c' /\ P c'.
Proof.
  intros Hstep evs. induction evs as [|ev evs IH]; intros c Hc; cbn [run].
  - eauto.
  - destruct (handle_total ev c) as (c1 & E1). rewrite E1. cbn [bind].
    apply IH. exact (Hstep ev c c1 E1 Hc).
Qed.

(** X1.  After every history of events the projection is rotated to the
    rotation state and scaled to the base radius times the zoom scale:
    every handler that writes the rotation or the zoom scale also updates
    the projection before it returns. *)
Theorem projection_follows_rotation_and_zoom (evs : list Event) :
  exists c,
    run evs mount = Ok c
    /\ rotate (projection c) = rotationRef c
    /\ scale (projection c) = (height - 20) / 2 * k (zoomRef c).
Proof.
  apply (run_invariant
           (fun c => rotate (projection c) = rotationRef c
                     /\ scale (projection c) = (height - 20) / 2 * k (zoomRef c))).
  - exact handle_projection.
  - split; reflexivity.
Qed.

(** ** The diagnostic stream *)

Lemma settle_console (r : Settlement) (c : Component) :
  settled (settle r c) = settled c
  /\ (console (settle r c) = console c
      \/ exists e,
           console (settle r c)
           = console c ++ [("Error loading or processing world map data:", e)]).
Proof.
  unfold settle, loaded, failed, console_error.
  destruct r as [error|[topology|]].
  - split; [reflexivity|]. right. eexists. reflexivity.
  - destruct (negb (svgRef c)); [split; [reflexivity|left; reflexivity]|].
    destruct (topojson_feature topology); cbn [bind].
    + split; [reflexivity|left; reflexivity].
    + split; [reflexivity|]. right. eexists. reflexivity.
  - destruct (negb (svgRef c)); [split; [reflexivity|left; reflexivity]|].
    split; [reflexivity|]. right. eexists. reflexivity.
Qed.

Lemma handle_console (ev : Event) (c c' : Component) :
  handle ev c = Ok c' ->
  (console c = []
   \/ settled c = true
      /\ exists e, console c = [("Error loading or processing world map data:", e)]) ->
  (console c' = []
   \/ settled c' = true
      /\ exists e, console c' = [("Error loading or processing world map data:", e)]).
Proof.
  intros E H.
  destruct ev as [|r| |dx dy| |ratio|factor tx ty]; cbn [handle] in E.
  - inversion E. subst c'. exact H.
  - destruct (settled c) eqn:S; inversion E; subst c'; [rewrite S; exact H|].
    destruct H as [H|[H _]]; [|discriminate].
    destruct (settle_console r (with_settled true c)) as [S' [C|[e C]]];
      rewrite S', C; cbn [with_settled settled console]; rewrite H;
      cbn [app];
      [left; reflexivity | right; split; [reflexivity|eauto]].
  - destruct (hammer c); inversion E; subst c'; exact H.
  - destruct (hammer c) as [h|]; [|inversion E; subst c'; exact H].
    unfold panmove in E. destruct (rotationRef c) as [[x0 y0] z0].
    cbn [bind fst snd] in E. inversion E. subst c'. exact H.
  - destruct (hammer c); inversion E; subst c'; exact H.
  - destruct (hammer c) as [h|]; inversion E; subst c'; exact H.
  - inversion E. subst c'. unfold wheeled.
    destruct (k (svg_zoom c) =? _); exact H.
Qed.

(** X2.  Over every history of events the diagnostic stream receives at
    most one entry, the load error, and none before the request has
    settled: the only [console.error] is in the [.catch] of the one
    request the effect starts. *)
Theorem console_holds_at_most_the_load_error (evs : list Event) :
  exists c,
    run evs mount = Ok c
    /\ (List.length (console c) <= 1)%nat
    /\ (settled c = false -> console c = [])
    /\ (forall entry, In entry (console c) ->
                      fst entry = "Error loading or processing world map data:").
Proof.
  destruct (run_invariant _ handle_console evs mount (or_introl eq_refl))
    as (c & E & H).
  exists c. split; [exact E|].
  destruct H as [H|[S [e H]]]; rewrite H; cbn [List.length In].
  - split; [lia|]. split; [reflexivity|]. intros entry [].
  - split; [lia|]. split.
    + intros S'. rewrite S in S'. discriminate.
    + intros entry [<-|[]]. reflexivity.
Qed.

(** ** What the drawing holds *)

Lemma run_app (evs1 evs2 : list Event) (c : Component) :
  run (evs1 ++ evs2) c = bind (run evs1 c) (run evs2).
Proof.
  revert c. induction evs1 as [|ev evs1 IH]; intros c; cbn [app run].
  - reflexivity.
  - destruct (handle ev c) as [c1|e]; cbn [bind]; [apply IH|reflexivity].
Qed.

Lemma selectAll_attr_shapes (t name : string) (f : Feature -> Value)
    (l : list Bound) :
  map shape_of (selectAll_attr t name f l) = map shape_of l.
Proof.
  unfold selectAll_attr. rewrite map_map. apply map_ext. intros b.
  destruct (String.eqb (tag (node b)) t); reflexivity.
Qed.

Lemma updateMap_layout (c : Component) : layout (updateMap c) = layout c.
Proof.
  unfold layout, updateMap.
  cbn [scene with_scene with_projection with_g g mapGroup_circle degreesGroup
         clippedGroup clipPath].
  rewrite !selectAll_attr_shapes. reflexivity.
Qed.

Lemma zoomed_layout (transform : ZoomTransform) (c : Component) :
  layout (zoomed transform c) = layout c.
Proof. unfold zoomed. rewrite updateMap_layout. reflexivity. Qed.

Lemma wheeled_layout (factor tx ty : float) (c : Component) :
  layout (wheeled factor tx ty c) = layout c.
Proof.
  unfold wheeled. destruct (k (svg_zoom c) =? _); [reflexivity|].
  rewrite zoomed_layout. reflexivity.
Qed.

(** Once the request has settled, and under every event but its
    settlement, the drawing keeps its elements and the gesture handlers
    stay as registered. *)
Lemma handle_layout (ev : Event) (c c' : Component) :
  handle ev c = Ok c' ->
  settled c = true \/ (forall r, ev <> Settle r) ->
  layout c' = layout c
  /\ settled c' = settled c
  /\ (hammer c' = None <-> hammer c = None).
Proof.
  intros E H.
  destruct ev as [|r| |dx dy| |ratio|factor tx ty]; cbn [handle] in E.
  - inversion E. subst c'. repeat split; auto.
  - destruct H as [S|H]; [|exfalso; exact (H r eq_refl)].
    rewrite S in E. inversion E. subst c'. repeat split; auto.
  - destruct (hammer c) eqn:Eh; inversion E; subst c'; [|tauto].
    cbn [hammer with_hammer]. repeat split; intros; discriminate.
  - destruct (hammer c) as [h|] eqn:Eh; [|inversion E; subst c'; tauto].
    unfold panmove in E. destruct (rotationRef c) as [[x0 y0] z0].
    cbn [bind fst snd] in E. inversion E. subst c'.
    split; [|split; [reflexivity|cbn [hammer with_hammer];
                                 split; intros; discriminate]].
    unfold layout. cbn [with_hammer scene].
    exact (updateMap_layout _).
  - destruct (hammer c) eqn:Eh; inversion E; subst c'; [|tauto].
    cbn [hammer with_hammer]. repeat split; intros; discriminate.
  - destruct (hammer c) as [h|] eqn:Eh; inversion E; subst c'; [|tauto].
    unfold pinch, zoom_scaleTo. rewrite zoomed_layout.
    split; [reflexivity|]. split; [reflexivity|].
    destruct (zoomed_frame
                {| k := zoom_clamp (Math_max 0.5632 (Math_min 8 (initialScale h * ratio)));
                   x := fst (zoom_translate (svg_zoom c)
                               (zoom_clamp (Math_max 0.5632 (Math_min 8 (initialScale h * ratio)))));
                   y := snd (zoom_translate (svg_zoom c)
                               (zoom_clamp (Math_max 0.5632 (Math_min 8 (initialScale h * ratio))))) |}
                (with_svg_zoom
                   {| k := zoom_clamp (Math_max 0.5632 (Math_min 8 (initialScale h * ratio)));
                      x := fst (zoom_translate (svg_zoom c)
                                  (zoom_clamp (Math_max 0.5632 (Math_min 8 (initialScale h * ratio)))));
                      y := snd (zoom_translate (svg_zoom c)
                                  (zoom_clamp (Math_max 0.5632 (Math_min 8 (initialScale h * ratio))))) |}
                   c)) as (_ & _ & _ & _ & Hh & _).
    rewrite Hh. cbn [hammer with_svg_zoom]. rewrite Eh. tauto.
  - inversion E. subst c'. rewrite wheeled_layout.
    destruct (wheeled_frame factor tx ty c) as (_ & _ & Hh & _).
    rewrite Hh. split; [reflexivity|]. split; [|tauto].
    unfold wheeled. destruct (k (svg_zoom c) =? _); reflexivity.
Qed.

Lemma run_layout (evs : list Event) (c : Component) :
  settled c = true ->
  exists c',
    run evs c = Ok c'
    /\ layout c' = layout c
    /\ (hammer c' = None <-> hammer c = None).
Proof.
  intros S.
  destruct (run_invariant
              (fun c' => layout c' = layout c /\ settled c' = true
                         /\ (hammer c' = None <-> hammer c = None))) with
    (evs := evs) (c := c) as (c' & E & L & _ & Hh).
  - intros ev c1 c2 E (L & S1 & Hh).
    destruct (handle_layout ev c1 c2 E (or_introl S1)) as (L2 & S2 & Hh2).
    rewrite L2, S2, Hh2. auto.
  - split; [reflexivity|]. split; [exact S|tauto].
  - eauto.
Qed.

(** While the request is pending and the component is mounted, whatever
    the events, the drawing is bare. *)
Lemma run_before_load (evs : list Event) :
  forallb before_load evs = true ->
  exists c,
    run evs mount = Ok c
    /\ svgRef c = true /\ settled c = false /\ bare c /\ console c = [].
Proof.
  intros H.
  assert (G : forall c, svgRef c = true /\ settled c = false ->
              exists c', run evs c = Ok c' /\ svgRef c' = true /\ settled c' = false).
  { induction evs as [|ev evs IH]; intros c Hc; cbn [run].
    - eauto.
    - cbn [forallb] in H. apply andb_prop in H. destruct H as [Hev H].
      destruct (handle_total ev c) as (c1 & E1). rewrite E1. cbn [bind].
      apply (IH H). destruct Hc as [Hr Hs].
      destruct (handle_layout ev c c1 E1) as (_ & S1 & _).
      { right. intros r ->. discriminate Hev. }
      split; [|congruence].
      destruct ev as [|r| |dx dy| |ratio|factor tx ty]; try discriminate Hev;
        cbn [handle] in E1.
      + destruct (hammer c); inversion E1; subst c1; exact Hr.
      + destruct (hammer c) as [h|]; [|inversion E1; subst c1; exact Hr].
        unfold panmove in E1. destruct (rotationRef c) as [[x0 y0] z0].
        cbn [bind fst snd] in E1. inversion E1. subst c1. exact Hr.
      + destruct (hammer c); inversion E1; subst c1; exact Hr.
      + destruct (hammer c); inversion E1; subst c1; exact Hr.
      + inversion E1. subst c1. unfold wheeled.
        destruct (k (svg_zoom c) =? _); exact Hr. }
  destruct (G mount (conj eq_refl eq_refl)) as (c & E & Hr & Hs).
  exists c. split; [exact E|]. split; [exact Hr|]. split; [exact Hs|].
  exact (run_unsettled evs mount c E (fun _ => mount_bare) Hs).
Qed.

(** X3.  A successful load, at whatever moment after mounting, draws one
    path and one label per country of the dataset, in the order of the
    dataset and the paths first, each label with the country's name as
    its text, and adds the edge circle and the tick ring and registers
    the gesture handlers; no later event (pan, pinch, wheel, a second
    settlement, unmounting) adds, removes or reorders any of these
    elements. *)
Theorem load_draws_one_path_and_label_per_country
    (topology : Topology) (features : list Feature) (evs1 evs2 : list Event) :
  forallb before_load evs1 = true ->
  topojson_feature topology = Ok features ->
  exists c,
    run (evs1 ++ Settle (Fulfilled (Some topology)) :: evs2) mount = Ok c
    /\ map shape_of (g (scene c))
       = map (fun d => (d, "path", None)) features
         ++ map (fun d => (d, "text", Some (properties_name d))) features
    /\ mapGroup_circle (scene c) = Some edge_circle
    /\ degreesGroup (scene c) = Some {| group_attrs := []; children := ticks |}
    /\ children (clippedGroup (scene c)) = [background]
    /\ hammer c <> None.
Proof.
  intros H1 Hf.
  destruct (run_before_load evs1 H1) as (c1 & E1 & Hr & Hs & Hb & _).
  destruct Hb as (_ & Bg & _ & _ & Bb & _).
  destruct (loaded_draws topology features (with_settled true c1) Hr Bg Hf)
    as (c2 & E2 & G2).
  assert (L2 : layout c2
               = (map (fun d => (d, "path", None)) features
                  ++ map (fun d => (d, "text", Some (properties_name d))) features,
                  Some edge_circle,
                  Some {| group_attrs := []; children := ticks |},
                  clippedGroup (scene c1), clipPath (scene c1))
               /\ hammer c2 <> None /\ settled c2 = true).
  { unfold loaded in E2. cbn [svgRef with_settled] in E2. rewrite Hr in E2.
    cbn [negb] in E2. rewrite Hf in E2. cbn [bind] in E2.
    unfold layout. rewrite G2. inversion E2 as [E]. clear E2.
    cbn [scene with_scene with_hammer with_g with_mapGroup_circle
           with_degreesGroup mapGroup_circle degreesGroup clippedGroup clipPath
           hammer settled with_settled].
    split; [|split; [discriminate|reflexivity]].
    rewrite map_app, !map_map. reflexivity. }
  destruct L2 as (L2 & Hh2 & S2).
  destruct (run_layout evs2 c2 S2) as (c & E & L & Hh).
  exists c. split.
  - rewrite run_app, E1. cbn [bind run handle]. rewrite Hs.
    unfold settle. rewrite E2. cbn [bind]. exact E.
  - rewrite L2 in L. unfold layout in L. inversion L as [[Lg Lc Ld Lb Lp]].
    repeat split; try reflexivity.
    + rewrite Lb. exact Bb.
    + intros N. apply Hh2. apply Hh. exact N.
Qed.

(** ** The drawing and the projection *)

Lemma updateMap_in_sync (c : Component) : in_sync (updateMap c).
Proof.
  destruct (updateMap_renders c) as (_ & _ & _ & H). exact H.
Qed.

Lemma settle_in_sync (r : Settlement) (c : Component) :
  g (scene c) = [] -> in_sync (settle r c).
Proof.
  intros Hg.
  assert (H0 : in_sync c) by (intros b Hb; rewrite Hg in Hb; destruct Hb).
  assert (H1 : forall e, in_sync (failed e c)) by (intros e; exact H0).
  unfold settle. destruct r as [error|[topology|]]; [apply H1| |];
    (destruct (svgRef c) eqn:Hs;
     [|unfold loaded; rewrite Hs; exact H0]).
  - destruct (topojson_feature topology) as [features|e] eqn:Hf.
    + destruct (loaded_draws topology features c Hs Hg Hf) as (c' & E & G).
      rewrite E. intros b Hb.
      assert (Hp : projection c' = projection c).
      { unfold loaded in E. rewrite Hs, Hf in E. cbn [negb bind] in E.
        inversion E. reflexivity. }
      rewrite Hp. rewrite G in Hb. apply in_app_or in Hb.
      destruct Hb as [Hb|Hb]; apply in_map_iff in Hb;
        destruct Hb as (d & <- & _); split; intros Ht;
        try discriminate Ht.
      * unfold rendered_d, country_path.
        cbn [node attrs attr element set_attr String.eqb Ascii.eqb Bool.eqb
               get_attr datum].
        reflexivity.
      * unfold country_label.
        cbn [node attrs attr set_text element set_attr String.eqb Ascii.eqb
               Bool.eqb get_attr datum].
        reflexivity.
    + unfold loaded. rewrite Hs, Hf. cbn [negb bind]. apply H1.
  - unfold loaded. rewrite Hs. cbn [negb]. apply H1.
Qed.

Lemma handle_in_sync (ev : Event) (c c' : Component) :
  handle ev c = Ok c' ->
  (settled c = false -> bare c /\ console c = []) /\ in_sync c ->
  (settled c' = false -> bare c' /\ console c' = []) /\ in_sync c'.
Proof.
  intros E [Hb Hi]. split; [exact (handle_unsettled ev c c' E Hb)|].
  destruct ev as [|r| |dx dy| |ratio|factor tx ty]; cbn [handle] in E.
  - inversion E. subst c'. exact Hi.
  - destruct (settled c) eqn:S; inversion E; subst c'; [exact Hi|].
    apply settle_in_sync. destruct (Hb eq_refl) as [(_ & Bg & _) _]. exact Bg.
  - destruct (hammer c); inversion E; subst c'; exact Hi.
  - destruct (hammer c) as [h|]; [|inversion E; subst c'; exact Hi].
    unfold panmove in E. destruct (rotationRef c) as [[x0 y0] z0].
    cbn [bind fst snd] in E. inversion E. subst c'.
    exact (updateMap_in_sync _).
  - destruct (hammer c); inversion E; subst c'; exact Hi.
  - destruct (hammer c) as [h|]; inversion E; subst c'; [|exact Hi].
    exact (updateMap_in_sync _).
  - inversion E. subst c'. unfold wheeled.
    destruct (k (svg_zoom c) =? _); [exact Hi|].
    exact (updateMap_in_sync _).
Qed.

(** X4.  After every history of events, each country path in the drawing
    carries the path of its country under the current projection, and
    each label sits at the centroid of its country under the current
    projection: no handler leaves the drawing behind the projection. *)
Theorem drawing_shows_the_current_projection (evs : list Event) :
  exists c,
    run evs mount = Ok c
    /\ forall b, In b (g (scene c)) ->
         (tag (node b) = "path" ->
          get_attr "d" (attrs (node b))
          = Some (Str (or_string (geoPath (projection c) (datum b)) "")))
         /\ (tag (node b) = "text" ->
             get_attr "transform" (attrs (node b))
             = Some (label_transform (projection c) (datum b))).
Proof.
  destruct (run_invariant _ handle_in_sync evs mount) as (c & E & _ & H).
  - split; [intros _; exact mount_bare|]. intros b [].
  - exists c. split; [exact E|exact H].
Qed.

(** ** Before the load and after unmounting *)

(** X5.  Until the request has settled no gesture handler is registered:
    pan and pinch events leave the whole state as it is. *)
Theorem gestures_before_the_load_are_ignored
    (evs : list Event) (c : Component) (ev : Event) :
  run evs mount = Ok c -> settled c = false -> hammer_event ev = true ->
  handle ev c = Ok c.
Proof.
  intros E S Hev.
  destruct (run_unsettled evs mount c E (fun _ => mount_bare) S) as [(Bh & _) _].
  destruct ev; try discriminate Hev; cbn [handle]; rewrite Bh; reflexivity.
Qed.

(** The rotation and the readout stay at the home position as long as no
    gesture handler is registered. *)
Lemma handle_home (ev : Event) (c c' : Component) :
  handle ev c = Ok c' ->
  (hammer c = None ->
   rotationRef c = (-13.27, -58.33, 0) /\ coordinates c = (-13.27, -58.33)) ->
  (hammer c' = None ->
   rotationRef c' = (-13.27, -58.33, 0) /\ coordinates c' = (-13.27, -58.33)).
Proof.
  intros E H.
  destruct ev as [|r| |dx dy| |ratio|factor tx ty]; cbn [handle] in E.
  - inversion E. subst c'. exact H.
  - destruct (settled c); inversion E; subst c'; [exact H|].
    destruct (settle_frame r (with_settled true c)) as (Er & _ & _ & Ec).
    rewrite Er, Ec. intros N. apply H.
    destruct (settle_hammer r (with_settled true c)) as [Eh|Eh];
      rewrite Eh in N; [exact N|discriminate N].
  - destruct (hammer c); inversion E; subst c'; [discriminate|intros _; exact (H eq_refl)].
  - destruct (hammer c) as [h|]; [|inversion E; subst c'; intros _; exact (H eq_refl)].
    unfold panmove in E. destruct (rotationRef c) as [[x0 y0] z0].
    cbn [bind fst snd] in E. inversion E. subst c'. discriminate.
  - destruct (hammer c); inversion E; subst c'; [discriminate|intros _; exact (H eq_refl)].
  - destruct (hammer c) as [h|] eqn:Eh; inversion E; subst c'; [|intros _; exact (H eq_refl)].
    intros N. exfalso.
    destruct (zoom_scaleTo_frame
                (Math_max 0.5632 (Math_min 8 (initialScale h * ratio))) c)
      as (_ & _ & _ & _ & Hh & _).
    unfold pinch in N. rewrite Hh, Eh in N. discriminate N.
  - inversion E. subst c'.
    destruct (wheeled_frame factor tx ty c) as (Wr & Wc & Wh & _).
    rewrite Wr, Wc, Wh. exact H.
Qed.

Lemma handle_unmounted (ev : Event) (c c' : Component) :
  handle ev c = Ok c' ->
  svgRef c = false /\ bare c ->
  (svgRef c' = false /\ bare c')
  /\ rotationRef c' = rotationRef c
  /\ coordinates c' = coordinates c
  /\ (rejects ev = false -> console c' = console c).
Proof.
  intros E [Hr Hb].
  destruct ev as [|r| |dx dy| |ratio|factor tx ty]; cbn [handle] in E.
  - inversion E. subst c'. repeat split; try apply Hb; exact Hr.
  - destruct (settled c); inversion E; subst c';
      [repeat split; try apply Hb; exact Hr|].
    unfold settle, loaded. cbn [svgRef with_settled]. rewrite Hr. cbn [negb].
    destruct r as [error|topology];
      repeat split; try apply Hb; try exact Hr. discriminate.
  - destruct Hb as (Bh & Hb). rewrite Bh in E. inversion E. subst c'.
    repeat split; try apply Hb; assumption.
  - destruct Hb as (Bh & Hb). rewrite Bh in E. inversion E. subst c'.
    repeat split; try apply Hb; assumption.
  - destruct Hb as (Bh & Hb). rewrite Bh in E. inversion E. subst c'.
    repeat split; try apply Hb; assumption.
  - destruct Hb as (Bh & Hb). rewrite Bh in E. inversion E. subst c'.
    repeat split; try apply Hb; assumption.
  - inversion E. subst c'. clear E.
    destruct (wheeled_frame factor tx ty c) as (Wr & Wc & _ & Wl).
    split; [|split; [exact Wr|split; [exact Wc|intros _; exact Wl]]].
    unfold wheeled in *.
    destruct (k (svg_zoom c) =? _); [split; assumption|].
    destruct Hb as (Bh & Bg & Bc & Bd & Bb & Bp).
    split; [exact Hr|]. unfold bare.
    cbn [zoomed updateMap scene with_scene with_projection with_g with_g_attrs
           with_zoomRef with_svg_zoom hammer console g mapGroup_circle
           degreesGroup clippedGroup clipPath].
    rewrite Bg. cbn [selectAll_attr map]. repeat split; assumption.
Qed.

Lemma run_unmounted (evs : list Event) (c : Component) :
  svgRef c = false -> bare c ->
  exists c',
    run evs c = Ok c'
    /\ bare c'
    /\ rotationRef c' = rotationRef c
    /\ coordinates c' = coordinates c
    /\ (existsb rejects evs = false -> console c' = console c).
Proof.
  revert c. induction evs as [|ev evs IH]; intros c Hr Hb; cbn [run existsb].
  - exists c. split; [reflexivity|]. split; [exact Hb|].
    split; [reflexivity|]. split; [reflexivity|]. intros _. reflexivity.
  - destruct (handle_total ev c) as (c1 & E1). rewrite E1. cbn [bind].
    destruct (handle_unmounted ev c c1 E1 (conj Hr Hb))
      as ((Hr1 & Hb1) & R1 & C1 & L1).
    destruct (IH c1 Hr1 Hb1) as (c' & E & B & R & C & L).
    exists c'. split; [exact E|]. split; [exact B|].
    split; [congruence|]. split; [congruence|].
    intros N. apply orb_false_elim in N. destruct N as [N1 N2].
    rewrite (L N2). exact (L1 N1).
Qed.

(** X6.  If the component is unmounted while the request is pending, the
    response is dropped: whatever arrives afterwards, the drawing stays
    the bare scaffold, no gesture handler is registered, the rotation and
    the readout keep the values they had at mount, and unless the
    request is rejected nothing is logged, not even for a response that
    is empty or cannot be decoded. *)
Theorem unmounting_before_the_load_drops_the_response
    (evs1 evs2 : list Event) :
  forallb before_load evs1 = true ->
  exists c,
    run (evs1 ++ Unmount :: evs2) mount = Ok c
    /\ bare c
    /\ rotationRef c = (-13.27, -58.33, 0)
    /\ coordinates c = (-13.27, -58.33)
    /\ (existsb rejects evs2 = false -> console c = []).
Proof.
  intros H1.
  destruct (run_before_load evs1 H1) as (c1 & E1 & _ & S1 & B1 & L1).
  destruct (run_unmounted evs2 (with_svgRef false c1) eq_refl B1)
    as (c & E & B & R & C & L).
  exists c. split.
  - rewrite run_app, E1. cbn [bind run handle]. exact E.
  - split; [exact B|].
    destruct (run_invariant _ handle_home evs1 mount (fun _ => conj eq_refl eq_refl))
      as (c1' & E1' & H1').
    rewrite E1 in E1'. inversion E1'. subst c1'.
    destruct B1 as (Bh & _). destruct (H1' Bh) as [R1 C1].
    cbn [rotationRef coordinates with_svgRef] in R, C.
    split; [congruence|]. split; [congruence|].
    intros N. rewrite (L N). exact L1.
Qed.

(** ** Saturation of the clamps *)

Lemma SFcompare_le_lt_trans (a b c : spec_float) :
  SFcompare a b = Some Lt \/ SFcompare a b = Some Eq ->
  SFcompare b c = Some Lt -> SFcompare a c = Some Lt.
Proof.
  assert (P : forall m n, Pos.compare_cont Eq m n = Pos.compare m n)
    by reflexivity.
  destruct a as [sa|sa| |sa ma ea], b as [sb|sb| |sb mb eb],
           c as [sc|sc| |sc mc ec];
    try destruct sa; try destruct sb; try destruct sc;
    cbn [SFcompare]; intros [H1|H1] H2;
    try discriminate H1; try discriminate H2; try reflexivity;
    injection H1 as H1; injection H2 as H2; f_equal;
    rewrite ?P in *;
    destruct (Z.compare_spec ea eb), (Z.compare_spec eb ec),
             (Z.compare_spec ea ec);
    try discriminate H1; try discriminate H2; try reflexivity; try lia;
    subst;
    destruct (Pos.compare_spec ma mb), (Pos.compare_spec mb mc),
             (Pos.compare_spec ma mc);
    try discriminate H1; try discriminate H2; try reflexivity; lia.
Qed.

Lemma leb_ltb_trans (a b c : float) :
  (a <=? b) = true -> (b <? c) = true -> (a <? c) = true.
Proof.
  rewrite leb_spec, !ltb_spec. unfold SFleb, SFltb. intros H1 H2.
  assert (G : SFcompare (Prim2SF a) (Prim2SF c) = Some Lt).
  { apply (SFcompare_le_lt_trans (Prim2SF a) (Prim2SF b) (Prim2SF c)).
    - destruct (SFcompare (Prim2SF a) (Prim2SF b)) as [[]|];
        try discriminate H1; auto.
    - destruct (SFcompare (Prim2SF b) (Prim2SF c)) as [[]|];
        try discriminate H2; reflexivity. }
  rewrite G. reflexivity.
Qed.

Lemma ltb_not_nan (a b : float) :
  (a <? b) = true -> is_nan a = false /\ is_nan b = false.
Proof. intros H. apply leb_not_nan. apply ltb_leb. exact H. Qed.

Lemma ltb_asym (a b : float) : (a <? b) = true -> (b <? a) = false.
Proof. intros H. apply leb_ltb_false. apply ltb_leb. exact H. Qed.

(** A clamp between two non-zero bounds returns the upper bound for
    every value at or above it, and the lower bound for every value at
    or below it. *)
Lemma clamp_saturates (lo hi v : float) :
  (lo <? hi) = true -> is_zero lo = false -> is_zero hi = false ->
  ((hi <=? v) = true -> Math_max lo (Math_min hi v) = hi)
  /\ ((v <=? lo) = true -> Math_max lo (Math_min hi v) = lo).
Proof.
  intros Hlt Zl Zh. destruct (ltb_not_nan lo hi Hlt) as [Nl Nh]. split; intros H.
  - destruct (leb_not_nan hi v H) as [_ Nv].
    assert (M : Math_min hi v = hi).
    { unfold Math_min. rewrite Nh, Nv. cbn [orb].
      destruct (hi <? v) eqn:E1; [reflexivity|].
      rewrite (leb_ltb_false hi v H).
      destruct (get_sign hi); [reflexivity|].
      symmetry. apply eqb_eq_nonzero; [|exact Zh].
      apply not_ltb_eqb; auto. exact (leb_ltb_false hi v H). }
    rewrite M. unfold Math_max. rewrite Nl, Nh. cbn [orb]. rewrite Hlt.
    reflexivity.
  - destruct (leb_not_nan v lo H) as [Nv _].
    assert (M : Math_min hi v = v).
    { unfold Math_min. rewrite Nh, Nv. cbn [orb].
      rewrite (ltb_asym v hi (leb_ltb_trans v lo hi H Hlt)).
      rewrite (leb_ltb_trans v lo hi H Hlt). reflexivity. }
    rewrite M. unfold Math_max. rewrite Nl, Nv. cbn [orb].
    rewrite (leb_ltb_false v lo H).
    destruct (v <? lo) eqn:E1; [reflexivity|].
    destruct (get_sign lo) eqn:Sg.
    + apply eqb_eq_nonzero; [|].
      * apply not_ltb_eqb; auto. exact (leb_ltb_false v lo H).
      * destruct (is_zero v) eqn:Zv; [|reflexivity]. exfalso.
        assert (Q : (v =? lo) = true)
          by (apply not_ltb_eqb; auto; exact (leb_ltb_false v lo H)).
        apply is_zero_spec in Zv. destruct Zv as [s Zv].
        rewrite eqb_spec in Q. unfold SFeqb in Q. rewrite Zv in Q.
        assert (Zl' : is_zero lo = true).
        { apply is_zero_spec.
          destruct (Prim2SF lo) as [s'|s'| |s' m' e']; cbn [SFcompare] in Q;
            try discriminate Q; try (destruct s'; discriminate Q); eauto. }
        rewrite Zl in Zl'. discriminate Zl'.
    + reflexivity.
Qed.

Lemma clamp_nan_eq (lo hi v : float) :
  is_nan v = true -> Math_max lo (Math_min hi v) = nan.
Proof.
  intros N. unfold Math_min. rewrite N, orb_true_r.
  unfold Math_max. change (is_nan nan) with true. rewrite orb_true_r.
  reflexivity.
Qed.

(** Restricting a scale to the scale extent a second time changes
    nothing, NaN included. *)
Lemma zoom_clamp_idem (k1 : float) : zoom_clamp (zoom_clamp k1) = zoom_clamp k1.
Proof.
  destruct (is_nan k1) eqn:N.
  - unfold zoom_clamp. rewrite (clamp_nan_eq _ _ k1 N).
    apply clamp_nan_eq. reflexivity.
  - apply zoom_clamp_id. apply zoom_clamp_in_extent. exact N.
Qed.

(** X7.  A pan tick whose unclamped pitch reaches or passes a pole pins
    the pitch, and the latitude of the readout, to exactly 90 or -90
    (an infinite unclamped pitch included). *)
Theorem pan_past_a_pole_pins_the_pitch
    (c : Component) (h : Gesture) (deltaX deltaY : float) :
  hammer c = Some h ->
  exists c',
    handle (PanMove deltaX deltaY) c = Ok c'
    /\ ((90 <=? pitch c - (deltaY - lastDeltaY h) * pan_k (k (zoomRef c))) = true ->
        pitch c' = 90 /\ snd (coordinates c') = 90)
    /\ ((pitch c - (deltaY - lastDeltaY h) * pan_k (k (zoomRef c)) <=? -90) = true ->
        pitch c' = -90 /\ snd (coordinates c') = -90).
Proof.
  intros Eh. cbn [handle]. rewrite Eh.
  destruct (panmove_spec deltaX deltaY h c)
    as (h' & c' & E & _ & Ep & _ & Ec & _).
  rewrite E. cbn [bind fst snd]. eexists. split; [reflexivity|].
  change (pitch (with_hammer (Some h') c')) with (pitch c').
  change (coordinates (with_hammer (Some h') c')) with (coordinates c').
  rewrite Ec, Ep. cbn [snd].
  destruct (clamp_saturates (-90) 90
              (pitch c - (deltaY - lastDeltaY h) * pan_k (k (zoomRef c)))
              eq_refl eq_refl eq_refl) as [Hhi Hlo].
  split; intros H; [rewrite (Hhi H)|rewrite (Hlo H)]; split; reflexivity.
Qed.

(** X8.  A pinch that asks for a scale at or beyond a bound of the scale
    extent stops at that bound: the zoom scale becomes exactly 8 or
    0.5632 and the projection is scaled by it. *)
Theorem pinch_beyond_the_extent_stops_at_its_bounds
    (c : Component) (h : Gesture) (ratio : float) :
  hammer c = Some h ->
  exists c',
    handle (Pinch ratio) c = Ok c'
    /\ ((8 <=? initialScale h * ratio) = true ->
        k (zoomRef c') = 8 /\ scale (projection c') = (height - 20) / 2 * 8)
    /\ ((initialScale h * ratio <=? 0.5632) = true ->
        k (zoomRef c') = 0.5632
        /\ scale (projection c') = (height - 20) / 2 * 0.5632).
Proof.
  intros Eh. cbn [handle]. rewrite Eh. eexists. split; [reflexivity|].
  destruct (zoom_scaleTo_frame
              (Math_max 0.5632 (Math_min 8 (initialScale h * ratio))) c)
    as (_ & Ek & _).
  assert (Es : scale (projection (pinch ratio h c))
               = (height - 20) / 2 * k (zoomRef (pinch ratio h c)))
    by reflexivity.
  rewrite Es. unfold pinch. rewrite Ek.
  destruct (clamp_saturates 0.5632 8 (initialScale h * ratio)
              eq_refl eq_refl eq_refl) as [Hhi Hlo].
  split; intros H; [rewrite (Hhi H)|rewrite (Hlo H)]; split; reflexivity.
Qed.

(** X9.  The clamp that the pinch handler applies before [zoom.scaleTo]
    is the one d3-zoom applies itself through the scale extent: the
    handler does what [zoom.scaleTo] does with the unclamped product, for
    every ratio (NaN included). *)
Theorem pinch_clamp_repeats_the_scale_extent
    (ratio : float) (h : Gesture) (c : Component) :
  pinch ratio h c = zoom_scaleTo (initialScale h * ratio) c.
Proof.
  unfold pinch, zoom_scaleTo.
  change (Math_max 0.5632 (Math_min 8 (initialScale h * ratio)))
    with (zoom_clamp (initialScale h * ratio)).
  rewrite zoom_clamp_idem. reflexivity.
Qed.

(** X10.  The ticks of one pinch are absolute: each sets the scale from
    the scale at the start of the pinch, so that after two ticks the zoom
    scale and the projection's scale are those the second tick alone
    would give, and the scale recorded at the start is kept. *)
Theorem pinch_ticks_do_not_accumulate
    (c : Component) (h : Gesture) (r1 r2 : float) :
  hammer c = Some h ->
  exists c1 c2 c2',
    handle (Pinch r1) c = Ok c1
    /\ handle (Pinch r2) c1 = Ok c2
    /\ handle (Pinch r2) c = Ok c2'
    /\ k (zoomRef c2) = k (zoomRef c2')
    /\ scale (projection c2) = scale (projection c2')
    /\ hammer c2 = Some h.
Proof.
  intros Eh.
  assert (F : forall r c0, hammer c0 = Some h ->
              handle (Pinch r) c0 = Ok (pinch r h c0)
              /\ hammer (pinch r h c0) = Some h
              /\ k (zoomRef (pinch r h c0))
                 = zoom_clamp (Math_max 0.5632 (Math_min 8 (initialScale h * r)))
              /\ scale (projection (pinch r h c0))
                 = (height - 20) / 2 * k (zoomRef (pinch r h c0))).
  { intros r c0 E0. cbn [handle]. rewrite E0. split; [reflexivity|].
    destruct (zoom_scaleTo_frame
                (Math_max 0.5632 (Math_min 8 (initialScale h * r))) c0)
      as (_ & Ek & _ & _ & Hh & _).
    unfold pinch. rewrite Hh, Ek. repeat split. exact E0. }
  destruct (F r1 c Eh) as (E1 & H1 & _).
  destruct (F r2 _ H1) as (E2 & H2 & K2 & S2).
  destruct (F r2 c Eh) as (E2' & _ & K2' & S2').
  exists (pinch r1 h c), (pinch r2 h (pinch r1 h c)), (pinch r2 h c).
  repeat split; try assumption; congruence.
Qed.

(** ** The readout *)

Lemma handle_readout (ev : Event) (c c' : Component) :
  handle ev c = Ok c' -> pan_tick ev = false ->
  coordinates c' = coordinates c /\ rotationRef c' = rotationRef c.
Proof.
  intros E H.
  destruct ev as [|r| |dx dy| |ratio|factor tx ty]; try discriminate H;
    cbn [handle] in E.
  - inversion E. subst c'. split; reflexivity.
  - destruct (settled c); inversion E; subst c'; [split; reflexivity|].
    destruct (settle_frame r (with_settled true c)) as (Er & _ & _ & Ec).
    rewrite Er, Ec. split; reflexivity.
  - destruct (hammer c); inversion E; subst c'; split; reflexivity.
  - destruct (hammer c); inversion E; subst c'; split; reflexivity.
  - destruct (hammer c) as [h|]; inversion E; subst c'; [|split; reflexivity].
    destruct (zoom_scaleTo_frame
                (Math_max 0.5632 (Math_min 8 (initialScale h * ratio))) c)
      as (Er & _ & _ & Ec & _).
    unfold pinch. rewrite Er, Ec. split; reflexivity.
  - inversion E. subst c'.
    destruct (wheeled_frame factor tx ty c) as (Wr & Wc & _).
    rewrite Wr, Wc. split; reflexivity.
Qed.

(** X11.  Until the first tick of a pan the readout shows the home
    position, with the station note under it: loading, unmounting,
    wheel ticks and pinches, in any number and order, leave both as they
    are at mount. *)
Theorem readout_is_home_until_the_first_pan_tick (evs : list Event) :
  existsb pan_tick evs = false ->
  exists c,
    run evs mount = Ok c
    /\ readout c = "-13.27°, -58.33°"
    /\ qth_note c = "(SA6HAM QTH)"
    /\ rotationRef c = (-13.27, -58.33, 0).
Proof.
  intros H.
  assert (G : forall c0, exists c, run evs c0 = Ok c
                /\ coordinates c = coordinates c0
                /\ rotationRef c = rotationRef c0).
  { induction evs as [|ev evs IH]; intros c0; cbn [run].
    - eauto.
    - cbn [existsb] in H. apply orb_false_elim in H. destruct H as [H1 H2].
      destruct (handle_total ev c0) as (c1 & E1). rewrite E1. cbn [bind].
      destruct (handle_readout ev c0 c1 E1 H1) as [Ec Er].
      destruct (IH H2 c1) as (c & E & Ec' & Er').
      exists c. split; [exact E|]. split; congruence. }
  destruct (G mount) as (c & E & Ec & Er).
  exists c. split; [exact E|].
  unfold readout, qth_note. rewrite Ec, Er.
  split; [vm_compute; reflexivity|]. split; reflexivity.
Qed.

(** ** The earlier revision of the pan handler *)

Lemma selectAll_attr_text_paths (name : string) (f : Feature -> Value)
    (l : list Bound) :
  filter (fun b => is_tag "path" (node b)) (selectAll_attr "text" name f l)
  = filter (fun b => is_tag "path" (node b)) l.
Proof.
  unfold selectAll_attr.
  induction l as [|b l IH]; cbn [map filter]; [reflexivity|].
  rewrite IH. destruct (String.eqb (tag (node b)) "text") eqn:E; [|reflexivity].
  unfold is_tag. cbn [node attr tag]. apply String.eqb_eq in E. rewrite E.
  reflexivity.
Qed.

Lemma within_not_ne (lo hi a b : float) :
  within lo hi a = true -> within lo hi b = false -> a <> b.
Proof. intros Ha Hb E. rewrite E, Hb in Ha. discriminate Ha. Qed.

(** X12.  The pan handler of the earlier revision is the current one
    without the clamp (and without the readout): on the same tick both
    record the same offsets and compute the same yaw and roll, the
    earlier one stores the pitch as computed, and the current one stores
    that pitch clamped.  While the computed pitch is within [-90, 90]
    the two leave the same rotation, the same projection and the same
    country paths; once it is outside (and a number) the current handler
    is within the range and the earlier one is not. *)
Theorem pitch_clamp_is_what_the_earlier_pan_handler_lacks
    (c : Component) (h : Gesture) (deltaX deltaY : float) :
  exists h' c_earlier c_now,
    panmove_earlier deltaX deltaY h c = Ok (h', c_earlier)
    /\ panmove deltaX deltaY h c = Ok (h', c_now)
    /\ pitch c_earlier
       = pitch c - (deltaY - lastDeltaY h) * pan_k (k (zoomRef c))
    /\ coordinates c_earlier = coordinates c
    /\ yaw c_now = yaw c_earlier
    /\ roll c_now = roll c_earlier
    /\ pitch c_now = Math_max (-90) (Math_min 90 (pitch c_earlier))
    /\ (within (-90) 90 (pitch c_earlier) = true ->
        rotationRef c_now = rotationRef c_earlier
        /\ projection c_now = projection c_earlier
        /\ paths c_now = paths c_earlier)
    /\ (within (-90) 90 (pitch c_earlier) = false ->
        is_nan (pitch c_earlier) = false ->
        within (-90) 90 (pitch c_now) = true
        /\ pitch c_now <> pitch c_earlier).
Proof.
  unfold panmove_earlier, panmove, pitch, yaw, roll.
  destruct (rotationRef c) as [[x0 y0] z0].
  do 3 eexists. split; [reflexivity|]. split; [reflexivity|].
  cbn [rotationRef coordinates projection scene updateMap updateMap_earlier
         with_rotationRef setCoordinates with_projection with_scene with_g g
         fst snd].
  split; [reflexivity|]. split; [reflexivity|]. split; [reflexivity|].
  split; [reflexivity|]. split; [reflexivity|].
  set (u := y0 - (deltaY - lastDeltaY h) * pan_k (k (zoomRef c))).
  split.
  - intros W. rewrite (clamp_id (-90) 90 u eq_refl eq_refl W).
    split; [reflexivity|]. split; [reflexivity|].
    unfold paths.
    cbn [scene with_scene with_g g with_projection with_rotationRef
           setCoordinates].
    apply selectAll_attr_text_paths.
  - intros W N.
    assert (W' : within (-90) 90 (Math_max (-90) (Math_min 90 u)) = true)
      by (apply clamp_within; [reflexivity|exact N]).
    split; [exact W'|]. exact (within_not_ne _ _ _ _ W' W).
Qed.

(** ** Repeated pan ticks *)

(** A finite number minus itself is a zero. *)
Lemma sub_self_zero (a : float) : is_finite a = true -> is_zero (a - a) = true.
Proof.
  rewrite is_finite_spec. intros F. apply is_zero_spec.
  rewrite sub_spec. unfold SF64sub.
  destruct (Prim2SF a) as [s|s| |s m e]; try discriminate F.
  - exists false. destruct s; reflexivity.
  - exists false. cbn [SFsub]. rewrite Z.min_id.
    unfold shl_align. rewrite Z.sub_diag. cbn [fst].
    replace (cond_Zopp s (Zpos m) + cond_Zopp (negb s) (Zpos m))%Z with 0%Z
      by (destruct s; cbn [cond_Zopp negb]; lia).
    reflexivity.
Qed.

Lemma SameValueZero_nan_l (a b : float) :
  is_nan b = true -> SameValueZero a b = true -> is_nan a = true.
Proof.
  unfold SameValueZero. intros N H. apply orb_prop in H.
  destruct H as [H|H]; [apply andb_prop in H; tauto|].
  rewrite eqb_spec in H. unfold SFeqb in H.
  apply is_nan_spec in N. rewrite N in H.
  destruct (Prim2SF a); discriminate H.
Qed.

(** X13.  A pan tick that repeats the offsets of the tick before it
    changes nothing: the handler measures from the offsets it recorded,
    so the rotation after the second delivery is the one after the
    first (the same values; the very same triple and readout when
    neither yaw nor pitch is a zero), whatever the rotation before. *)
Theorem repeated_pan_tick_changes_nothing
    (c : Component) (h : Gesture) (deltaX deltaY : float) :
  within 0.5632 8 (k (zoomRef c)) = true -> hammer c = Some h ->
  is_finite deltaX = true -> is_finite deltaY = true ->
  exists c1 c2,
    handle (PanMove deltaX deltaY) c = Ok c1
    /\ handle (PanMove deltaX deltaY) c1 = Ok c2
    /\ SameValueZero (yaw c2) (yaw c1) = true
    /\ SameValueZero (pitch c2) (pitch c1) = true
    /\ roll c2 = roll c1
    /\ hammer c2 = hammer c1
    /\ zoomRef c2 = zoomRef c1
    /\ (is_zero (yaw c1) = false -> is_zero (pitch c1) = false ->
        rotationRef c2 = rotationRef c1 /\ coordinates c2 = coordinates c1).
Proof.
  intros Hk Eh Fx Fy.
  destruct (pan_k_finite _ Hk) as [Hf _].
  cbn [handle]. rewrite Eh.
  destruct (panmove_spec deltaX deltaY h c)
    as (h1 & c1 & E1 & _ & Ep1 & Erl1 & Ec1 & Ez1 & _ & _ & _ & Lx1 & Ly1 & Li1).
  rewrite E1. cbn [bind fst snd].
  exists (with_hammer (Some h1) c1).
  cbn [handle hammer with_hammer].
  destruct (panmove_spec deltaX deltaY h1 (with_hammer (Some h1) c1))
    as (h2 & c2 & E2 & Ey2 & Ep2 & Erl2 & Ec2 & Ez2 & _ & _ & _ & Lx2 & Ly2 & Li2).
  rewrite E2. cbn [bind fst snd].
  exists (with_hammer (Some h2) c2).
  split; [reflexivity|]. split; [reflexivity|].
  change (yaw (with_hammer (Some h2) c2)) with (yaw c2).
  change (pitch (with_hammer (Some h2) c2)) with (pitch c2).
  change (roll (with_hammer (Some h2) c2)) with (roll c2).
  change (rotationRef (with_hammer (Some h2) c2)) with (rotationRef c2).
  change (coordinates (with_hammer (Some h2) c2)) with (coordinates c2).
  change (zoomRef (with_hammer (Some h2) c2)) with (zoomRef c2).
  change (yaw (with_hammer (Some h1) c1)) with (yaw c1) in *.
  change (pitch (with_hammer (Some h1) c1)) with (pitch c1) in *.
  change (roll (with_hammer (Some h1) c1)) with (roll c1).
  change (rotationRef (with_hammer (Some h1) c1)) with (rotationRef c1).
  change (coordinates (with_hammer (Some h1) c1)) with (coordinates c1).
  change (zoomRef (with_hammer (Some h1) c1)) with (zoomRef c1) in *.
  rewrite Lx1, Ly1, Ez1 in *.
  pose proof (sub_self_zero deltaX Fx) as Zx.
  pose proof (sub_self_zero deltaY Fy) as Zy.
  destruct (pan_zero_delta (yaw c1) _ _ Zx Hf) as (Y1 & _ & Y2 & _).
  destruct (pan_zero_delta (pitch c1) _ _ Zy Hf) as (_ & P1 & P2 & P3).
  set (kk := pan_k (k (zoomRef c))) in *.
  assert (Hh : h2 = h1).
  { destruct h1 as [a1 b1 i1], h2 as [a2 b2 i2].
    cbn [lastDeltaX lastDeltaY initialScale] in *. congruence. }
  assert (Hp : SameValueZero (pitch c2) (pitch c1) = true
               /\ (is_zero (pitch c1) = false -> pitch c2 = pitch c1)).
  { rewrite Ep2. destruct (is_nan (pitch c1)) eqn:N.
    - split; [|intros Z].
      + unfold SameValueZero.
        rewrite (clamp_nan (-90) 90 _ (SameValueZero_nan_l _ _ N P1)), N.
        reflexivity.
      + destruct (P2 Z) as [_ Q]. rewrite Q.
        rewrite (clamp_nan_eq (-90) 90 _ N).
        apply Prim2SF_inj. apply is_nan_spec in N. rewrite N. reflexivity.
    - assert (W : within (-90) 90 (pitch c1) = true).
      { rewrite Ep1 in N |- *.
        apply clamp_within; [reflexivity|].
        destruct (is_nan (pitch c - (deltaY - lastDeltaY h) * kk)) eqn:N';
          [|reflexivity].
        rewrite (clamp_nan (-90) 90 _ N') in N. discriminate N. }
      assert (Q : Math_max (-90) (Math_min 90 (pitch c1 - (deltaY - deltaY) * kk))
                  = pitch c1 - (deltaY - deltaY) * kk).
      { apply clamp_id; try reflexivity.
        destruct (is_zero (pitch c1)) eqn:Ez.
        - apply (within_zero (-90) 90 (pitch c1)); auto.
        - destruct (P2 eq_refl) as [_ ->]. exact W. }
      rewrite Q. split; [exact P1|]. intros Z. exact (proj2 (P2 Z)). }
  destruct Hp as [Hp1 Hp2].
  split; [rewrite Ey2; exact Y1|]. split; [exact Hp1|].
  split; [congruence|]. split; [rewrite Hh; reflexivity|].
  split; [exact Ez2|].
  intros Zyaw Zp.
  assert (R : rotationRef c2 = rotationRef c1).
  { rewrite (rotation_eta c2), (rotation_eta c1).
    rewrite Ey2, (Hp2 Zp), Erl2, Erl1. destruct (Y2 Zyaw) as [-> _].
    reflexivity. }
  split; [exact R|]. rewrite Ec2, Ec1. unfold yaw, pitch. rewrite R.
  reflexivity.
Qed.

(** ** The zoom state and what shows it *)

Lemma zoomed_shown (t : ZoomTransform) (c : Component) :
  svg_zoom c = t -> zoom_shown (zoomed t c).
Proof.
  intros E. destruct (zoomed_frame t c) as (_ & Ez & Es & _).
  split; [rewrite Ez, Es; symmetry; exact E|]. left. rewrite Ez.
  unfold zoomed, updateMap.
  cbn [scene with_scene with_projection with_g with_g_attrs with_zoomRef
         g_attrs].
  apply get_set_attr.
Qed.

Lemma handle_zoom_shown (ev : Event) (c c' : Component) :
  handle ev c = Ok c' -> zoom_shown c -> zoom_shown c'.
Proof.
  intros E H.
  destruct ev as [|r| |dx dy| |ratio|factor tx ty]; cbn [handle] in E.
  - inversion E. subst c'. exact H.
  - destruct (settled c); inversion E; subst c'; [exact H|].
    destruct (settle_frame r (with_settled true c)) as (_ & Ez & Es & _).
    unfold zoom_shown. rewrite Ez, Es.
    assert (Ea : g_attrs (scene (settle r (with_settled true c)))
                 = g_attrs (scene c)).
    { unfold settle, loaded. cbn [svgRef with_settled].
      destruct r as [error|[topology|]]; [reflexivity| |];
        destruct (negb (svgRef c)); try reflexivity.
      destruct (topojson_feature topology); reflexivity. }
    rewrite Ea. exact H.
  - destruct (hammer c); inversion E; subst c'; exact H.
  - destruct (hammer c) as [h|]; [|inversion E; subst c'; exact H].
    unfold panmove in E. destruct (rotationRef c) as [[x0 y0] z0].
    cbn [bind fst snd] in E. inversion E. subst c'. exact H.
  - destruct (hammer c); inversion E; subst c'; exact H.
  - destruct (hammer c) as [h|]; inversion E; subst c'; [|exact H].
    apply zoomed_shown. reflexivity.
  - inversion E. subst c'. unfold wheeled.
    destruct (k (svg_zoom c) =? _); [exact H|].
    apply zoomed_shown. reflexivity.
Qed.

(** X14.  After every history of events the zoom state is the transform
    that d3-zoom keeps on the drawing, and the country group is scaled
    about the centre of the view by just that scale: its [transform]
    attribute is the one the listener builds from the current zoom
    scale, or it has none while the zoom state is still the identity. *)
Theorem zoom_state_is_the_scale_shown (evs : list Event) :
  exists c,
    run evs mount = Ok c
    /\ zoomRef c = svg_zoom c
    /\ (get_attr "transform" (g_attrs (scene c))
        = Some (Str ("translate(" ++ Number_toString (width / 2) ++ ", "
                     ++ Number_toString (height / 2) ++ ") scale("
                     ++ Number_toString (k (zoomRef c)) ++ ") translate("
                     ++ Number_toString (- width / 2) ++ ", "
                     ++ Number_toString (- height / 2) ++ ")")%string)
        \/ (g_attrs (scene c) = [] /\ zoomRef c = zoomIdentity)).
Proof.
  destruct (run_invariant _ handle_zoom_shown evs mount) as (c & E & H).
  - split; [reflexivity|]. right. split; reflexivity.
  - exists c. split; [exact E|]. exact H.
Qed.

(** ** The pan sensitivity *)

(** The quotient of 0.3 by a normal number between 1/2 and 8 is a normal
    number between 1/32 and 2. *)
Lemma SFdiv_baseK_bounds (m2 : positive) (e2 : Z) :
  (-53 <= e2 <= -50)%Z -> (0 <= Zpos (digits2_pos m2) + e2 <= 3)%Z ->
  exists m3 e3,
    SFdiv prec emax (S754_finite false 5404319552844595 (-54))
      (S754_finite false m2 e2) = S754_finite false m3 e3
    /\ (-4 <= Zpos (digits2_pos m3) + e3 <= 1)%Z.
Proof.
  intros He2 HD. unfold SFdiv, SFdiv_core_binary.
  change (Zdigits2 (Zpos 5404319552844595)) with 53%Z.
  change (Zdigits2 (Zpos m2)) with (Zpos (digits2_pos m2)).
  set (d2 := Zpos (digits2_pos m2)) in *.
  assert (Hd2 : (1 <= d2)%Z) by (unfold d2; lia).
  pose proof (Zdigits2_bounds (Zpos m2) ltac:(lia)) as Hb.
  change (Zdigits2 (Zpos m2)) with d2 in Hb.
  rewrite fexp_eq.
  replace (Z.min (Z.max (53 + -54 - (d2 + e2) - 53) (-1074)) (-54 - e2))
    with (-54 - (d2 + e2))%Z by lia.
  replace (-54 - e2 - (-54 - (d2 + e2)))%Z with d2 by lia.
  set (m' := match d2 with Zpos _ => Z.shiftl 5404319552844595 d2
                      | Z0 => 5404319552844595%Z | Zneg _ => 0%Z end).
  assert (Hm' : m' = (5404319552844595 * 2 ^ d2)%Z).
  { unfold m'. destruct d2 eqn:E; try lia. rewrite Z.shiftl_mul_pow2; lia. }
  clearbody m'.
  pose proof (Z.div_eucl_eq m' (Zpos m2) ltac:(lia)) as Hq.
  pose proof (Z.mod_pos_bound m' (Zpos m2) ltac:(lia)) as Hr.
  unfold Z.modulo in Hr.
  destruct (Z.div_eucl m' (Zpos m2)) as [q r].
  assert (Hp : (2 ^ d2 = 2 * 2 ^ (d2 - 1))%Z).
  { replace d2 with (1 + (d2 - 1))%Z at 1 by lia.
    rewrite Z.pow_add_r by lia. reflexivity. }
  assert (Hpp : (0 < 2 ^ (d2 - 1))%Z) by (apply Z.pow_pos_nonneg; lia).
  assert (Hqb : (2 ^ 52 <= q < 2 ^ 54)%Z).
  { assert (E1 : (2 ^ 52 = 4503599627370496)%Z) by reflexivity.
    assert (E2 : (2 ^ 54 = 18014398509481984)%Z) by reflexivity.
    rewrite E1, E2. split; nia. }
  pose proof (Zdigits2_range q 52 54 ltac:(lia) Hqb) as Hdq.
  destruct (binary_round_aux_finite false q (-54 - (d2 + e2))
              (new_location (Zpos m2) r)) as (m3 & e3 & E & _ & B).
  { pose proof (Z.pow_pos_nonneg 2 52). lia. }
  { lia. }
  { lia. }
  exists m3, e3. split; [exact E|]. lia.
Qed.

(** X15.  At every zoom scale of the scale extent the pan sensitivity
    0.3 / sqrt(k) is a finite number of degrees per pixel between 1/32
    and 2: never zero, negative, infinite or NaN. *)
Theorem pan_sensitivity_is_bounded (zk : float) :
  within 0.5632 8 zk = true ->
  is_finite (pan_k zk) = true
  /\ (0.03125 <=? pan_k zk) = true
  /\ (pan_k zk <? 2) = true.
Proof.
  intros H. destruct (within_scaleExtent_spec zk H) as (m & e & E & Hd & He).
  destruct (SFsqrt_finite m e Hd He) as (m2 & e2 & E2 & B1 & B2).
  destruct (SFdiv_baseK_bounds m2 e2 B1 B2) as (m3 & e3 & E3 & B3).
  assert (Ek : Prim2SF (pan_k zk) = S754_finite false m3 e3).
  { unfold pan_k, Math_sqrt, baseK. rewrite div_spec, sqrt_spec, E.
    unfold SF64div, SF64sqrt. rewrite E2.
    change (Prim2SF 0.3) with (S754_finite false 5404319552844595 (-54)).
    exact E3. }
  pose proof (Prim2SF_valid (pan_k zk)) as Hv. rewrite Ek in Hv.
  unfold SpecFloat.valid_binary, bounded, canonical_mantissa in Hv.
  apply andb_prop in Hv. destruct Hv as [Hc _]. apply Z.eqb_eq in Hc.
  rewrite fexp_eq in Hc.
  assert (Hd3 : Zpos (digits2_pos m3) = 53%Z) by lia.
  assert (He3 : (-57 <= e3 <= -52)%Z) by lia.
  assert (Hm3 : (4503599627370496 <= Zpos m3)%Z).
  { assert (Hp : (0 < Zpos m3)%Z) by reflexivity.
    pose proof (Zdigits2_bounds (Zpos m3) Hp) as Hb.
    change (Zdigits2 (Zpos m3)) with (Zpos (digits2_pos m3)) in Hb.
    rewrite Hd3 in Hb. exact (proj1 Hb). }
  clear Hc B3 Hd3.
  split; [rewrite is_finite_spec, Ek; reflexivity|].
  rewrite leb_spec, ltb_spec, Ek. unfold SFleb, SFltb.
  change (Prim2SF 0.03125) with (S754_finite false 4503599627370496 (-57)).
  change (Prim2SF 2) with (S754_finite false 4503599627370496 (-51)).
  unfold SFcompare.
  split.
  - destruct (Z.compare_spec (-57) e3); [|reflexivity|lia].
    change (Pos.compare_cont Eq 4503599627370496 m3)
      with (Z.compare 4503599627370496 (Zpos m3)).
    destruct (Z.compare_spec 4503599627370496 (Zpos m3));
      [reflexivity|reflexivity|lia].
  - destruct (Z.compare_spec e3 (-51)); [lia|reflexivity|lia].
Qed.

(** ** NaN *)

Lemma sub_nan (a b : float) :
  is_nan a = true \/ is_nan b = true -> is_nan (a - b) = true.
Proof.
  rewrite !is_nan_spec, sub_spec. unfold SF64sub.
  intros [H|H]; rewrite H; [|destruct (Prim2SF a)]; reflexivity.
Qed.

Lemma mul_nan_l (a b : float) : is_nan a = true -> is_nan (a * b) = true.
Proof.
  rewrite !is_nan_spec, mul_spec. unfold SF64mul.
  intros H. rewrite H. reflexivity.
Qed.

Lemma within_nan (lo hi v : float) : is_nan v = true -> within lo hi v = false.
Proof.
  intros N. unfold within. destruct (lo <=? v) eqn:E; [|reflexivity].
  destruct (leb_not_nan lo v E) as [_ N']. rewrite N in N'. discriminate N'.
Qed.

Lemma handle_nan_pitch (ev : Event) (c c' : Component) :
  handle ev c = Ok c' -> is_nan (pitch c) = true -> is_nan (pitch c') = true.
Proof.
  intros E N.
  destruct (pan_tick ev) eqn:P.
  - destruct ev as [|r| |dx dy| |ratio|factor tx ty]; try discriminate P.
    cbn [handle] in E.
    destruct (hammer c) as [h|]; [|inversion E; subst c'; exact N].
    destruct (panmove_spec dx dy h c) as (h' & c1 & E1 & _ & Ep & _).
    rewrite E1 in E. cbn [bind fst snd] in E. inversion E. subst c'.
    change (pitch (with_hammer (Some h') c1)) with (pitch c1).
    rewrite Ep. apply clamp_nan. apply sub_nan. left. exact N.
  - destruct (handle_readout ev c c' E P) as [_ Er].
    unfold pitch. rewrite Er. exact N.
Qed.

(** X16.  The clamp lets NaN through: a pan tick whose vertical offset is
    NaN makes the pitch NaN, and a NaN pitch is never repaired, since
    every later pan tick computes the new pitch from it; after every
    further history of events the pitch is outside [-90, 90]. *)
Theorem nan_pitch_is_never_repaired
    (c : Component) (h : Gesture) (deltaX deltaY : float) (evs : list Event) :
  hammer c = Some h -> is_nan deltaY = true ->
  exists c1 c2,
    handle (PanMove deltaX deltaY) c = Ok c1
    /\ is_nan (pitch c1) = true
    /\ run evs c1 = Ok c2
    /\ is_nan (pitch c2) = true
    /\ within (-90) 90 (pitch c2) = false.
Proof.
  intros Eh N.
  assert (H1 : exists c1, handle (PanMove deltaX deltaY) c = Ok c1
                          /\ is_nan (pitch c1) = true).
  { cbn [handle]. rewrite Eh.
    destruct (panmove_spec deltaX deltaY h c) as (h' & c1 & E1 & _ & Ep & _).
    rewrite E1. cbn [bind fst snd]. eexists. split; [reflexivity|].
    change (pitch (with_hammer (Some h') c1)) with (pitch c1).
    rewrite Ep. apply clamp_nan. apply sub_nan. right.
    apply mul_nan_l. apply sub_nan. left. exact N. }
  destruct H1 as (c1 & E1 & N1).
  destruct (run_invariant (fun c0 => is_nan (pitch c0) = true)
              handle_nan_pitch evs c1 N1) as (c2 & E2 & N2).
  exists c1, c2. repeat split; try assumption.
  apply within_nan. exact N2.
Qed.

End AzimuthalMap.

Arguments Rejected {Topology} error.
Arguments Fulfilled {Topology} topology.
Arguments Unmount {Topology}.
Arguments Settle {Topology} r.
Arguments PanStart {Topology}.
Arguments PanMove {Topology} deltaX deltaY.
Arguments PinchStart {Topology}.
Arguments Pinch {Topology} scale.
Arguments Wheel {Topology} factor tx ty.

(** * The component on the sample environment *)

Abbreviation at_sample t :=
  (t Sample.Topology Sample.Feature Sample.properties_name
     Sample.topojson_feature Sample.geoPath Sample.path_centroid
     Sample.Number_toString Sample.Math_sin Sample.Math_cos
     Sample.zoom_translate).

Abbreviation sample_mount :=
  (mount Sample.Feature Sample.geoPath Sample.path_centroid
     Sample.Number_toString).

Abbreviation sample_updateMap :=
  (updateMap Sample.Feature Sample.geoPath Sample.path_centroid
     Sample.Number_toString).

Abbreviation sample_handle := (at_sample handle).
Abbreviation sample_run := (at_sample run).

(** The state after the events [evs], from mount. *)
Abbreviation sample_after evs :=
  (match sample_run evs sample_mount with
   | Ok c => c
   | Throw _ => sample_mount
   end).

Abbreviation fetched := (Settle (Fulfilled (Some tt))).

Example readout_at_mount :
  readout Sample.Feature Sample.Number_toString sample_mount = "-13.27°, -58.33°"
  /\ qth_note Sample.Feature sample_mount = "(SA6HAM QTH)".
Proof. split; reflexivity. Qed.

Example readout_after_pan :
  readout Sample.Feature Sample.Number_toString
    (sample_after [fetched; PanStart; PanMove 100 (-20); PanMove 130 500])
  = "25.73°, -90.00°".
Proof. reflexivity. Qed.

Example successful_load_draws_the_ring :
  shows_tick_marks Sample.Feature (sample_after [fetched]) = true
  /\ map (datum Sample.Feature)
       (g Sample.Feature (scene Sample.Feature (sample_after [fetched])))
     = ["Sweden"; "Antarctica"; "Sweden"; "Antarctica"].
Proof. split; reflexivity. Qed.

(** ** The built-ins on concrete numbers *)

Example Math_max_min_nan :
  Math_max (-90) (Math_min 90 nan) = nan
  /\ Math_max (-90) (Math_min 90 infinity) = 90
  /\ Math_max (-90) (Math_min 90 neg_infinity) = -90.
Proof. repeat split. Qed.

Example Math_max_min_zeros :
  Math_max neg_zero zero = zero /\ Math_max zero neg_zero = zero
  /\ Math_min neg_zero zero = neg_zero /\ Math_min zero neg_zero = neg_zero.
Proof. repeat split. Qed.

Example toFixed_rounds :
  let toFixed := toFixed Sample.Number_toString 2 in
  toFixed 1.005 = "1.00" /\ toFixed 0.125 = "0.13" /\ toFixed 2.5 = "2.50"
  /\ toFixed (-0.001) = "-0.00" /\ toFixed neg_zero = "0.00"
  /\ toFixed 123456.789 = "123456.79"
  /\ toFixed 999999999999999900000 = "999999999999999868928.00"
  /\ toFixed 1e21 = Sample.Number_toString 1e21.
Proof. repeat split. Qed.

(** ** Witnesses *)

(** C1 at work: after loading, a pan whose horizontal offsets overflow the
    yaw to an infinity, zooming and pinching, a pan-move of astronomically
    large offsets. *)
Lemma pan_move_keeps_rotation_valid_witness :
  exists c',
    sample_run
      ([fetched; PanStart; PanMove 1e308 (-1000); PanMove (-1e308) 10;
        Wheel 3 440 440; PinchStart; Pinch 0.01] ++ [PanMove 1e300 (-1e300)])
      sample_mount = Ok c'
    /\ within (-90) 90 (pitch Sample.Feature c') = true
    /\ roll Sample.Feature c' = 0.
Proof.
  apply (at_sample pan_move_keeps_rotation_valid); reflexivity.
Defined.

(** C2 at work: wheel factors and pinch ratios that are huge, zero,
    negative and infinite. *)
Lemma zoom_scale_within_extent_witness :
  exists c',
    sample_run
      [fetched; Wheel 1e300 0 0; PinchStart; Pinch infinity; Pinch 0;
       Wheel (-5) 1 1; PinchStart; Pinch neg_infinity; Wheel 1e-320 2 2]
      sample_mount = Ok c'
    /\ within 0.5632 8 (k (zoomRef Sample.Feature c')) = true.
Proof.
  apply (at_sample zoom_scale_within_extent); reflexivity.
Defined.

(** C3 at work: the request is rejected after the user has already
    zoomed. *)
Lemma load_failure_logs_once_and_draws_nothing_witness :
  let c := sample_after [Wheel 2 440 440] in
  let e := NetworkError "Failed to fetch" in
  exists c',
    sample_handle (Settle (Rejected e)) c = Ok c'
    /\ console Sample.Feature c'
       = [("Error loading or processing world map data:", e)]
    /\ scene Sample.Feature c' = scene Sample.Feature c
    /\ bare Sample.Feature c'
    /\ shows_tick_marks Sample.Feature c' = false.
Proof.
  cbv zeta.
  apply (at_sample load_failure_logs_once_and_draws_nothing [Wheel 2 440 440]
           (sample_after [Wheel 2 440 440])
           (Rejected (NetworkError "Failed to fetch"))
           (NetworkError "Failed to fetch"));
    vm_compute; reflexivity.
Defined.

(** The claim C3 as the specification states it fails: after a rejected
    request the drawing has the background and no tick marks. *)
Lemma fetch_failure_draws_no_tick_marks :
  exists c',
    sample_handle (Settle (Rejected (NetworkError "Failed to fetch"))) sample_mount
    = Ok c'
    /\ children (clippedGroup Sample.Feature (scene Sample.Feature c'))
       = [background]
    /\ degreesGroup Sample.Feature (scene Sample.Feature c') = None
    /\ shows_tick_marks Sample.Feature c' = false
    /\ List.length (console Sample.Feature c') = 1%nat.
Proof. eexists. repeat split. Qed.

(** C4 at work: the second tick of a pan, at zoom scale 4. *)
Lemma pan_tick_rotates_by_scaled_delta_witness :
  let c := sample_after [fetched; Wheel 4 440 440; PanStart; PanMove 10 20] in
  exists c',
    sample_handle (PanMove 40 10) c = Ok c'
    /\ yaw Sample.Feature c' = yaw Sample.Feature c + (40 - 10) * (0.3 / 2)
    /\ pitch Sample.Feature c' = pitch Sample.Feature c - (10 - 20) * (0.3 / 2).
Proof.
  cbv zeta.
  destruct (at_sample pan_tick_rotates_by_scaled_delta
              (sample_after [fetched; Wheel 4 440 440; PanStart; PanMove 10 20])
              {| lastDeltaX := 10; lastDeltaY := 20; initialScale := 1 |}
              40 10 eq_refl)
    as [(c' & h' & E & _ & Ey & _ & Ep & _) _].
  exists c'. split; [exact E|]. split; [exact Ey|].
  apply Ep. reflexivity.
Defined.

(** C6 at work: a tick that reports the offsets of the previous one. *)
Lemma pan_by_zero_keeps_rotation_witness :
  let c := sample_after [fetched; PanStart; PanMove 30 40] in
  exists c',
    sample_handle (PanMove 30 40) c = Ok c'
    /\ rotationRef Sample.Feature c' = rotationRef Sample.Feature c.
Proof.
  cbv zeta.
  destruct (at_sample pan_by_zero_keeps_rotation
              (sample_after [fetched; PanStart; PanMove 30 40])
              {| lastDeltaX := 30; lastDeltaY := 40; initialScale := 1 |}
              30 40 eq_refl eq_refl eq_refl eq_refl eq_refl eq_refl)
    as (c' & E & _ & _ & _ & L).
  exists c'. split; [exact E|]. apply L; reflexivity.
Defined.

(** C7 at work: a pinch of ratio one at zoom scale 3. *)
Lemma pinch_ratio_one_keeps_scale_witness :
  let c := sample_after [fetched; Wheel 3 440 440] in
  k (zoomRef Sample.Feature c) = 3
  /\ exists c' c'',
       sample_handle PinchStart c = Ok c'
       /\ sample_handle (Pinch 1) c' = Ok c''
       /\ k (zoomRef Sample.Feature c'') = 3.
Proof.
  cbv zeta. split; [reflexivity|].
  destruct (at_sample pinch_ratio_one_keeps_scale
              (sample_after [fetched; Wheel 3 440 440]) eq_refl)
    as (c' & c'' & E1 & _ & E2 & Ek).
  exists c', c''. split; [exact E1|]. split; [exact E2|]. exact Ek.
Defined.

(** C8 at work: Antarctica, which the sample path generator clips away
    entirely, is drawn with an empty path. *)
Lemma path_attribute_is_empty_without_output_witness :
  let c := sample_updateMap (sample_after [fetched]) in
  exists b,
    nth_error (g Sample.Feature (scene Sample.Feature c)) 1 = Some b
    /\ datum Sample.Feature b = "Antarctica"
    /\ rendered_d Sample.Feature b = Some (Str "").
Proof.
  cbv zeta.
  destruct (nth_error (g Sample.Feature (scene Sample.Feature
              (sample_updateMap (sample_after [fetched])))) 1) as [b|] eqn:E;
    [|vm_compute in E; discriminate E].
  exists b. split; [reflexivity|].
  assert (Hb : In b (g Sample.Feature (scene Sample.Feature
                       (sample_updateMap (sample_after [fetched])))))
    by (apply nth_error_In with (n := 1%nat); exact E).
  vm_compute in E. inversion E as [Eb]. clear E. subst b.
  split; [reflexivity|].
  apply (proj1 (proj2 (path_attribute_is_empty_without_output
                         Sample.Topology Sample.Feature Sample.properties_name
                         Sample.topojson_feature Sample.geoPath
                         Sample.path_centroid Sample.Number_toString
                         Sample.Math_sin Sample.Math_cos))
           (sample_after [fetched])).
  - exact Hb.
  - reflexivity.
  - vm_compute. reflexivity.
Defined.


(** C9 at work: the initial yaw has its two decimals. *)
Lemma readout_formats_current_rotation_witness :
  fixed_range (-13.27) = true
  /\ exists a b,
       toFixed Sample.Number_toString 2 (-13.27) = (a ++ "." ++ b)%string
       /\ String.length b = 2%nat.
Proof.
  split; [reflexivity|].
  apply (proj2 (at_sample readout_formats_current_rotation)). reflexivity.
Defined.

(** X3 at work: the two countries of the sample dataset, loaded after a
    wheel tick and followed by a pan and the unmounting. *)
Lemma load_draws_one_path_and_label_per_country_witness :
  exists c,
    sample_run ([Wheel 2 0 0; PanStart]
                ++ fetched :: [PanStart; PanMove 30 40; Unmount]) sample_mount
    = Ok c
    /\ map (shape_of Sample.Feature) (g Sample.Feature (scene Sample.Feature c))
       = [("Sweden", "path", None); ("Antarctica", "path", None);
          ("Sweden", "text", Some "Sweden");
          ("Antarctica", "text", Some "Antarctica")].
Proof.
  destruct (at_sample load_draws_one_path_and_label_per_country
              tt ["Sweden"; "Antarctica"] [Wheel 2 0 0; PanStart]
              [PanStart; PanMove 30 40; Unmount] eq_refl eq_refl)
    as (c & E & G & _).
  exists c. split; [exact E|exact G].
Defined.

(** X5 at work: a pan tick that comes before the dataset. *)
Lemma gestures_before_the_load_are_ignored_witness :
  sample_handle (PanMove 30 40) (sample_after [Wheel 2 0 0])
  = Ok (sample_after [Wheel 2 0 0]).
Proof.
  apply (at_sample gestures_before_the_load_are_ignored [Wheel 2 0 0]);
    vm_compute; reflexivity.
Defined.

(** X6 at work: the dataset arrives after the component was unmounted,
    and a pan is tried. *)
Lemma unmounting_before_the_load_drops_the_response_witness :
  exists c,
    sample_run ([Wheel 2 0 0] ++ Unmount :: [fetched; PanStart; PanMove 30 40])
      sample_mount = Ok c
    /\ g Sample.Feature (scene Sample.Feature c) = []
    /\ console Sample.Feature c = [].
Proof.
  destruct (at_sample unmounting_before_the_load_drops_the_response
              [Wheel 2 0 0] [fetched; PanStart; PanMove 30 40] eq_refl)
    as (c & E & (_ & G & _) & _ & _ & L).
  exists c. split; [exact E|]. split; [exact G|]. apply L. reflexivity.
Defined.

(** X7 at work: a long downward drag from the home position. *)
Lemma pan_past_a_pole_pins_the_pitch_witness :
  exists c',
    sample_handle (PanMove 0 (-1000)) (sample_after [fetched; PanStart]) = Ok c'
    /\ pitch Sample.Feature c' = 90
    /\ snd (coordinates Sample.Feature c') = 90.
Proof.
  destruct (at_sample pan_past_a_pole_pins_the_pitch
              (sample_after [fetched; PanStart])
              {| lastDeltaX := 0; lastDeltaY := 0; initialScale := 1 |}
              0 (-1000) eq_refl) as (c' & E & Hhi & _).
  exists c'. split; [exact E|]. apply Hhi. vm_compute. reflexivity.
Defined.

(** X8 at work: a pinch to twenty times the scale. *)
Lemma pinch_beyond_the_extent_stops_at_its_bounds_witness :
  exists c',
    sample_handle (Pinch 20) (sample_after [fetched; PinchStart]) = Ok c'
    /\ k (zoomRef Sample.Feature c') = 8
    /\ scale (projection Sample.Feature c') = 3120.
Proof.
  destruct (at_sample pinch_beyond_the_extent_stops_at_its_bounds
              (sample_after [fetched; PinchStart])
              {| lastDeltaX := 0; lastDeltaY := 0; initialScale := 1 |}
              20 eq_refl) as (c' & E & Hhi & _).
  exists c'. split; [exact E|]. apply Hhi. vm_compute. reflexivity.
Defined.

(** X10 at work: a pinch out to three times the scale, then back to a
    half more. *)
Lemma pinch_ticks_do_not_accumulate_witness :
  exists c1 c2,
    sample_handle (Pinch 3) (sample_after [fetched; PinchStart]) = Ok c1
    /\ sample_handle (Pinch 1.5) c1 = Ok c2
    /\ k (zoomRef Sample.Feature c2) = 1.5.
Proof.
  destruct (at_sample pinch_ticks_do_not_accumulate
              (sample_after [fetched; PinchStart])
              {| lastDeltaX := 0; lastDeltaY := 0; initialScale := 1 |}
              3 1.5 eq_refl) as (c1 & c2 & c2' & E1 & E2 & E2' & K & _).
  exists c1, c2. split; [exact E1|]. split; [exact E2|].
  rewrite K. vm_compute in E2'. inversion E2'. reflexivity.
Defined.

(** X11 at work: the dataset arrives, then a wheel tick and a pinch. *)
Lemma readout_is_home_until_the_first_pan_tick_witness :
  exists c,
    sample_run [fetched; Wheel 2 0 0; PinchStart; Pinch 3; PanStart] sample_mount
    = Ok c
    /\ readout Sample.Feature Sample.Number_toString c = "-13.27°, -58.33°"
    /\ qth_note Sample.Feature c = "(SA6HAM QTH)".
Proof.
  destruct (at_sample readout_is_home_until_the_first_pan_tick
              [fetched; Wheel 2 0 0; PinchStart; Pinch 3; PanStart] eq_refl)
    as (c & E & R & Q & _).
  exists c. split; [exact E|]. split; [exact R|exact Q].
Defined.

(** X12 at work: a long downward drag from the home position takes the
    earlier handler past the pole and leaves the current one on it. *)
Lemma pitch_clamp_is_what_the_earlier_pan_handler_lacks_witness :
  exists h' c_earlier c_now,
    panmove_earlier Sample.Feature Sample.geoPath 0 (-1000)
      {| lastDeltaX := 0; lastDeltaY := 0; initialScale := 1 |}
      (sample_after [fetched; PanStart]) = Ok (h', c_earlier)
    /\ panmove Sample.Feature Sample.geoPath Sample.path_centroid
         Sample.Number_toString 0 (-1000)
         {| lastDeltaX := 0; lastDeltaY := 0; initialScale := 1 |}
         (sample_after [fetched; PanStart]) = Ok (h', c_now)
    /\ (90 <? pitch Sample.Feature c_earlier) = true
    /\ pitch Sample.Feature c_now = 90.
Proof.
  destruct (pitch_clamp_is_what_the_earlier_pan_handler_lacks
              Sample.Feature Sample.geoPath Sample.path_centroid
              Sample.Number_toString
              (sample_after [fetched; PanStart])
              {| lastDeltaX := 0; lastDeltaY := 0; initialScale := 1 |}
              0 (-1000))
    as (h' & c_earlier & c_now & E1 & E2 & P & _ & _ & _ & C & _).
  exists h', c_earlier, c_now.
  split; [exact E1|]. split; [exact E2|]. rewrite C, P.
  split; vm_compute; reflexivity.
Defined.

(** X13 at work: the same offsets delivered twice. *)
Lemma repeated_pan_tick_changes_nothing_witness :
  exists c1 c2,
    sample_handle (PanMove 30 40) (sample_after [fetched; PanStart]) = Ok c1
    /\ sample_handle (PanMove 30 40) c1 = Ok c2
    /\ SameValueZero (yaw Sample.Feature c2) (yaw Sample.Feature c1) = true
    /\ SameValueZero (pitch Sample.Feature c2) (pitch Sample.Feature c1) = true.
Proof.
  destruct (at_sample repeated_pan_tick_changes_nothing
              (sample_after [fetched; PanStart])
              {| lastDeltaX := 0; lastDeltaY := 0; initialScale := 1 |}
              30 40 eq_refl eq_refl eq_refl eq_refl)
    as (c1 & c2 & E1 & E2 & Y & P & _).
  exists c1, c2. split; [exact E1|]. split; [exact E2|].
  split; [exact Y|exact P].
Defined.

(** X15 at work: the sensitivity at the identity zoom. *)
Lemma pan_sensitivity_is_bounded_witness :
  (0.03125 <=? pan_k 1) = true /\ (pan_k 1 <? 2) = true.
Proof.
  destruct (pan_sensitivity_is_bounded 1 eq_refl) as (_ & A & B).
  split; [exact A|exact B].
Defined.

(** X16 at work: a NaN offset, then a regular pan tick and a wheel tick. *)
Lemma nan_pitch_is_never_repaired_witness :
  exists c1 c2,
    sample_handle (PanMove 0 nan) (sample_after [fetched; PanStart]) = Ok c1
    /\ sample_run [PanMove 10 10; Wheel 2 0 0] c1 = Ok c2
    /\ is_nan (pitch Sample.Feature c2) = true.
Proof.
  destruct (at_sample nan_pitch_is_never_repaired
              (sample_after [fetched; PanStart])
              {| lastDeltaX := 0; lastDeltaY := 0; initialScale := 1 |}
              0 nan [PanMove 10 10; Wheel 2 0 0] eq_refl eq_refl)
    as (c1 & c2 & E1 & _ & E2 & N & _).
  exists c1, c2. split; [exact E1|]. split; [exact E2|exact N].
Defined.
